(** * generate-podcast: the script-to-audio pipeline of [utils.py]

    A shallow embedding of [parse_script] and [generate_podcast_audio].

    - Python [str] values are sequences of Unicode code points: a script is
      a [list N].  Constant strings that are never inspected character by
      character (voice identifiers, paths, messages) are [string]s.
    - The regular expression of [parse_script] is embedded as a backtracking
      matcher: every sub-pattern returns the list of its possible matches in
      the order in which the [re] engine tries them, and a match of the
      whole pattern is the first element of the composed list.
    - [generate_podcast_audio] is embedded in a state-and-exception monad
      over a world holding the temporary directories, the regular files and
      the log of the calls made to the speech service. *)

From Stdlib Require Import NArith Ascii String.
From stdpp Require Import gmap strings list fin_maps pretty sorting.

Local Open Scope N_scope.

(** ** Strings of code points *)

Definition str : Type := list N.

(** The code points of an ASCII literal. *)
Definition U (s : string) : str := N_of_ascii <$> list_ascii_of_string s.

(** [Py_UNICODE_ISSPACE]: the test behind both [\s] of a [str] pattern and
    [str.strip()]. *)
Definition isspace (c : N) : bool :=
  ((0x09 <=? c) && (c <=? 0x0D)) || ((0x1C <=? c) && (c <=? 0x20))
  || (c =? 0x85) || (c =? 0xA0) || (c =? 0x1680)
  || ((0x2000 <=? c) && (c <=? 0x200A))
  || (c =? 0x2028) || (c =? 0x2029) || (c =? 0x202F) || (c =? 0x205F)
  || (c =? 0x3000).

(** Simple lower-casing, exact on ASCII and on U+017F (which is its own
    lower case).  The only other code points whose lower case is an ASCII
    letter are U+0130 (to i) and U+212A (to k); neither i nor k occurs in
    the pattern, so the matcher below never tells the difference. *)
Definition to_lower (c : N) : N :=
  if (0x41 <=? c) && (c <=? 0x5A) then c + 32 else c.

(** Title-casing, exact on ASCII and on U+017F (whose title case is S). *)
Definition to_title (c : N) : N :=
  if (0x61 <=? c) && (c <=? 0x7A) then c - 32
  else if c =? 0x17F then 0x53 else c.

(** [sre_compile._ignorecase_fixes], restricted to the lower-case letters of
    the pattern: the long s (U+017F) is equivalent to s. *)
Definition ignorecase_fixes (lo : N) : list N :=
  if lo =? 0x73 then [0x17F] else [].

(** A cased literal [p] of a pattern compiled with [re.IGNORECASE] matches
    [c] when the lower case of [c] is the lower case of [p] or one of its
    fixes. *)
Definition lit_ignorecase (p c : N) : bool :=
  let lo := to_lower p in
  let x := to_lower c in
  (x =? lo) || existsb (N.eqb x) (ignorecase_fixes lo).

(** [str.strip()] *)
Fixpoint lstrip (s : str) : str :=
  match s with
  | c :: s' => if isspace c then lstrip s' else s
  | [] => []
  end.

Definition rstrip (s : str) : str := reverse (lstrip (reverse s)).

Definition strip (s : str) : str := rstrip (lstrip s).

(** [str.capitalize()]: first character title-cased, the rest lower-cased. *)
Definition capitalize (s : str) : str :=
  match s with
  | [] => []
  | c :: s' => to_title c :: (to_lower <$> s')
  end.

(** ** The pattern [(Host|Guest):\s*(.+?)(?=(?:Host|Guest):|$)]
       under [re.DOTALL | re.IGNORECASE] *)

Module Re.

(** A literal word, case-insensitively: the matched text and the rest. *)
Fixpoint word (pat : str) (s : str) : list (str * str) :=
  match pat with
  | [] => [([], s)]
  | p :: pat' =>
      match s with
      | c :: s' =>
          if lit_ignorecase p c
          then (λ '(m, r), (c :: m, r)) <$> word pat' s'
          else []
      | [] => []
      end
  end.

(** [Host|Guest]: the alternatives in order. *)
Definition label (s : str) : list (str * str) :=
  word (U "Host") s ++ word (U "Guest") s.

(** [:] *)
Definition colon (s : str) : list str :=
  match s with
  | c :: s' => if c =? 0x3A then [s'] else []
  | [] => []
  end.

(** [\s*], greedy: the rests after each possible run of white space, the
    longest run first. *)
Fixpoint spaces (s : str) : list str :=
  match s with
  | c :: s' => if isspace c then spaces s' ++ [s] else [s]
  | [] => [[]]
  end.

(** [.+?] with [re.DOTALL], lazy: every non-empty prefix with its rest, the
    shortest prefix first. *)
Fixpoint dots (s : str) : list (str * str) :=
  match s with
  | [] => []
  | c :: s' => ([c], s') :: ((λ '(b, r), (c :: b, r)) <$> dots s')
  end.

(** [$] without [re.MULTILINE]: at the end of the string, or just before a
    newline that ends the string. *)
Definition at_end (s : str) : bool :=
  match s with
  | [] => true
  | [c] => c =? 0x0A
  | _ => false
  end.

(** [(?:Host|Guest):] matches here. *)
Definition label_colon (s : str) : bool :=
  bool_decide ((label s ≫= λ '(_, r), colon r) ≠ []).

(** [(?=(?:Host|Guest):|$)] *)
Definition lookahead (s : str) : bool := label_colon s || at_end s.

(** All the matches of the whole pattern that start at the head of [s], in
    the engine's order: groups 1 and 2 and the rest of the string. *)
Definition matches_here (s : str) : list (str * str * str) :=
  '(g1, r1) ← label s;
  r2 ← colon r1;
  r3 ← spaces r2;
  '(g2, r4) ← dots r3;
  if lookahead r4 then [(g1, g2, r4)] else [].

Definition match_here (s : str) : option (str * str * str) :=
  head (matches_here s).

(** [re.findall]: scan from the left; after a match the scan resumes where
    the match ended, otherwise one character further. *)
Fixpoint findall_from (fuel : nat) (s : str) : list (str * str) :=
  match fuel with
  | O => []
  | S fuel' =>
      match match_here s with
      | Some (g1, g2, rest) => (g1, g2) :: findall_from fuel' rest
      | None =>
          match s with
          | [] => []
          | _ :: s' => findall_from fuel' s'
          end
      end
  end.

Definition findall (s : str) : list (str * str) :=
  findall_from (S (length s)) s.

End Re.

(** ** [parse_script] *)

Definition parse_script (script : str) : list (str * str) :=
  let matches := Re.findall script in
  foldl (λ parsed '(speaker, text),
           let cleaned_text := strip text in
           if bool_decide (cleaned_text ≠ [])
           then parsed ++ [(capitalize speaker, cleaned_text)]
           else parsed)
        [] matches.

(** ** The world of [generate_podcast_audio] *)

Definition HOST_VOICE : string := "ko-KR-InJoonNeural".
Definition GUEST_VOICE : string := "ko-KR-SunHiNeural".

(** The exceptions that occur: the two the program raises itself, those of
    the [os] module, those of pydub's decoder, and whatever the speech
    service or the encoder raises. *)
Inductive exn :=
  | ValueError (msg : string)
  | RuntimeError (msg : string)
  | OSError (msg : string)
  | DecodeError (msg : string)
  | ServiceError (msg : string).

(** [str(e)] *)
Definition str_of_exn (e : exn) : string :=
  match e with
  | ValueError m | RuntimeError m | OSError m | DecodeError m
  | ServiceError m => m
  end.

Inductive result (A : Type) :=
  | Ok (a : A)
  | Raise (e : exn).
Arguments Ok {A} a.
Arguments Raise {A} e.

(** One call [edge_tts.Communicate(text, voice, rate=...).save(path)]; a
    path inside a temporary directory is the directory and the file name. *)
Record TtsCall := {
  call_text : str;
  call_voice : string;
  call_rate : string;
  call_path : nat * string;
}.

(** What a call to the speech service does: the file it leaves at the path,
    if any, and the error it raises, if any. *)
Record SaveOutcome (mp3 : Type) := {
  written : option mp3;
  raised : option string;
}.
Arguments written {mp3} s.
Arguments raised {mp3} s.

(** What [export] does: success, or an error that may leave something at the
    destination. *)
Inductive ExportOutcome (A : Type) :=
  | Exported
  | ExportFailed (left_behind : option A) (msg : string).
Arguments Exported {A}.
Arguments ExportFailed {A} left_behind msg.

(** The external collaborators: pydub's [AudioSegment] and the speech
    service. *)
Record Env := {
  mp3 : Type;
  AudioSegment : Type;
  seg_add : AudioSegment → AudioSegment → AudioSegment;
  seg_silent : N → AudioSegment;
  communicate_save : TtsCall → SaveOutcome mp3;
  decode_mp3 : mp3 → AudioSegment + string;
  export_mp3 : AudioSegment → string → ExportOutcome AudioSegment;
}.

(** Which calls of [os.remove] and [os.rmdir] fail for a reason outside the
    program. *)
Record Faults := {
  remove_fails : nat → string → bool;
  rmdir_fails : nat → bool;
}.

Definition no_faults : Faults :=
  {| remove_fails := λ _ _, false; rmdir_fails := λ _, false |}.

Record World (E : Env) := {
  dirs : gmap nat (gmap string (mp3 E));
  files : gmap string (AudioSegment E);
  calls : list TtsCall;
}.
Arguments dirs {E} w.
Arguments files {E} w.
Arguments calls {E} w.

Definition M (E : Env) (A : Type) : Type := World E → result A * World E.

Global Instance M_ret (E : Env) : MRet (M E) := λ A a w, (Ok a, w).

Global Instance M_bind (E : Env) : MBind (M E) := λ A B f m w,
  match m w with
  | (Ok a, w') => f a w'
  | (Raise e, w') => (Raise e, w')
  end.

Section Pipeline.
Context {E : Env}.
Variable F : Faults.

Definition raise {A} (e : exn) : M E A := λ w, (Raise e, w).

(** [try: body finally: cleanup] *)
Definition finally {A} (body : M E A) (cleanup : M E ()) : M E A := λ w,
  let '(r, w1) := body w in
  match cleanup w1 with
  | (Ok _, w2) => (r, w2)
  | (Raise e, w2) => (Raise e, w2)
  end.

(** [try: body except: pass] *)
Definition except_pass (body : M E ()) : M E () := λ w,
  (Ok (), (body w).2).

(** [try: body except Exception as e: handler] *)
Definition except_as {A} (body : M E A) (handler : exn → M E A) : M E A := λ w,
  match body w with
  | (Ok a, w') => (Ok a, w')
  | (Raise e, w') => handler e w'
  end.

Definition set_dirs (f : gmap nat (gmap string (mp3 E)) → gmap nat (gmap string (mp3 E)))
    (w : World E) : World E :=
  {| dirs := f (dirs w); files := files w; calls := calls w |}.

(** [tempfile.mkdtemp()]: a new, empty directory. *)
Definition mkdtemp : M E nat := λ w,
  let d := fresh (dom (dirs w)) in
  (Ok d, set_dirs <[d := ∅]> w).

(** [os.listdir] *)
Definition listdir (d : nat) : M E (list string) := λ w,
  match dirs w !! d with
  | Some fs => (Ok (map_to_list fs).*1, w)
  | None => (Raise (OSError "No such file or directory"), w)
  end.

(** [os.remove] *)
Definition remove (d : nat) (f : string) : M E () := λ w,
  match dirs w !! d with
  | Some fs =>
      if remove_fails F d f then (Raise (OSError "Operation not permitted"), w)
      else match fs !! f with
           | Some _ => (Ok (), set_dirs <[d := delete f fs]> w)
           | None => (Raise (OSError "No such file or directory"), w)
           end
  | None => (Raise (OSError "No such file or directory"), w)
  end.

(** [os.rmdir]: only an empty directory can be removed. *)
Definition rmdir (d : nat) : M E () := λ w,
  match dirs w !! d with
  | Some fs =>
      if rmdir_fails F d then (Raise (OSError "Operation not permitted"), w)
      else if bool_decide (fs = ∅) then (Ok (), set_dirs (delete d) w)
      else (Raise (OSError "Directory not empty"), w)
  | None => (Raise (OSError "No such file or directory"), w)
  end.

(** [_generate_single_audio]: one call to the service at the fixed rate.
    The file is opened inside the directory, which must exist. *)
Definition _generate_single_audio (text : str) (voice : string)
    (output_path : nat * string) : M E () := λ w,
  let c := {| call_text := text; call_voice := voice;
              call_rate := "+20%"; call_path := output_path |} in
  let log ds := {| dirs := ds; files := files w; calls := calls w ++ [c] |} in
  match dirs w !! output_path.1 with
  | None => (Raise (OSError "No such file or directory"), log (dirs w))
  | Some fs =>
      let o := communicate_save E c in
      let w1 := log match written o with
                    | Some b => <[output_path.1 := <[output_path.2 := b]> fs]> (dirs w)
                    | None => dirs w
                    end in
      match raised o with
      | Some msg => (Raise (ServiceError msg), w1)
      | None => (Ok (), w1)
      end
  end.

(** [AudioSegment.from_mp3] *)
Definition from_mp3 (path : nat * string) : M E (AudioSegment E) := λ w,
  match dirs w !! path.1 ≫= (.!! path.2) with
  | Some b =>
      match decode_mp3 E b with
      | inl seg => (Ok seg, w)
      | inr msg => (Raise (DecodeError msg), w)
      end
  | None => (Raise (OSError "No such file or directory"), w)
  end.

(** [AudioSegment.export(path, format="mp3")] *)
Definition export (seg : AudioSegment E) (path : string) : M E () := λ w,
  let put a := {| dirs := dirs w; files := <[path := a]> (files w); calls := calls w |} in
  match export_mp3 E seg path with
  | Exported => (Ok (), put seg)
  | ExportFailed (Some a) msg => (Raise (ServiceError msg), put a)
  | ExportFailed None msg => (Raise (ServiceError msg), w)
  end.

Definition lf : string := String (ascii_of_N 10) EmptyString.

(** The text of the [RuntimeError] raised when a segment cannot be loaded,
    before the detail of the underlying error. *)
Definition remediation : string :=
  "오디오 처리 중 오류가 발생했습니다. " +:+
  "ffmpeg가 설치되어 있는지 확인해주세요." +:+ lf +:+
  "설치 방법 (Mac): brew install ffmpeg" +:+ lf +:+
  "설치 방법 (Ubuntu): sudo apt-get install ffmpeg" +:+ lf +:+
  "오류 상세: ".

(** [HOST_VOICE if speaker == "Host" else GUEST_VOICE] *)
Definition resolve_voice (speaker : str) : string :=
  if bool_decide (speaker = U "Host") then HOST_VOICE else GUEST_VOICE.

Definition segment_file (temp_dir i : nat) : nat * string :=
  (temp_dir, "segment_" +:+ pretty i +:+ ".mp3").

(** One iteration of the [for] loop, for turn [i]; [audio_segments] is the
    list built so far. *)
Definition synthesize_turn (temp_dir i : nat) (turn : str * str)
    (audio_segments : list (AudioSegment E)) : M E (list (AudioSegment E)) :=
  let '(speaker, text) := turn in
  let voice := resolve_voice speaker in
  let temp_file := segment_file temp_dir i in
  _ ← _generate_single_audio text voice temp_file;
  except_as
    (segment ← from_mp3 temp_file;
     let pause := seg_silent E 500 in
     mret (audio_segments ++ [segment] ++ [pause]))
    (λ e, raise (RuntimeError (remediation +:+ str_of_exn e))).

(** The [for] loop over [enumerate(parsed_script)], from turn [i] on. *)
Fixpoint synthesize_turns (temp_dir i : nat) (turns : list (str * str))
    (audio_segments : list (AudioSegment E)) : M E (list (AudioSegment E)) :=
  match turns with
  | [] => mret audio_segments
  | turn :: turns' =>
      audio_segments ← synthesize_turn temp_dir i turn audio_segments;
      synthesize_turns temp_dir (S i) turns' audio_segments
  end.

(** "Combine all segments" and "Export the final audio". *)
Definition assemble (audio_segments : list (AudioSegment E))
    (output_path : string) : M E string :=
  _ ← match audio_segments with
      | [] => mret ()
      | first :: rest => export (foldl (seg_add E) first rest) output_path
      end;
  mret output_path.

(** The [finally] block. *)
Definition cleanup (temp_dir : nat) : M E () :=
  fs ← listdir temp_dir;
  _ ← foldr (λ f k, _ ← except_pass (remove temp_dir f); k) (mret ()) fs;
  except_pass (rmdir temp_dir).

(** The text of the [ValueError] raised when no turn was parsed. *)
Definition unparsable : string :=
  "대본을 파싱할 수 없습니다. 올바른 형식인지 확인해주세요.".

(** The [try] block. *)
Definition try_block (temp_dir : nat) (parsed_script : list (str * str))
    (output_path : string) : M E string :=
  audio_segments ← synthesize_turns temp_dir 0 parsed_script [];
  assemble audio_segments output_path.

Definition generate_podcast_audio (script : str) (output_path : string) : M E string :=
  let parsed_script := parse_script script in
  if bool_decide (parsed_script = [])
  then raise (ValueError unparsable)
  else
    temp_dir ← mkdtemp;
    finally (try_block temp_dir parsed_script output_path) (cleanup temp_dir).

End Pipeline.

(** ** A concrete environment to run the pipeline in

    An audio segment is the list of its clips (a synthesized utterance or a
    silence) with its duration in milliseconds; the speech service is a stub
    that returns a one-second segment for every utterance, and the file it
    writes is that segment. *)
Module Demo.

Inductive clip :=
  | Speech (text : str) (voice : string)
  | Silence.

Record audio := { clips : list clip; ms : N }.

Definition add (a b : audio) : audio :=
  {| clips := clips a ++ clips b; ms := ms a + ms b |}.

Definition silent (n : N) : audio := {| clips := [Silence]; ms := n |}.

Definition speak (c : TtsCall) : audio :=
  {| clips := [Speech (call_text c) (call_voice c)]; ms := 1000 |}.

(** A service and a decoder that always work. *)
Definition env : Env := {|
  mp3 := audio;
  AudioSegment := audio;
  seg_add := add;
  seg_silent := silent;
  communicate_save := λ c, {| written := Some (speak c); raised := None |};
  decode_mp3 := inl;
  export_mp3 := λ _ _, Exported;
|}.

Definition guest_clip (k : clip) : bool :=
  match k with
  | Speech _ v => String.eqb v GUEST_VOICE
  | Silence => false
  end.

(** The same service with a decoder that rejects the files of the Guest
    voice. *)
Definition env_corrupt_guest : Env := {|
  mp3 := audio;
  AudioSegment := audio;
  seg_add := add;
  seg_silent := silent;
  communicate_save := λ c, {| written := Some (speak c); raised := None |};
  decode_mp3 := λ b,
    if existsb guest_clip (clips b) then inr "Decoding failed" else inl b;
  export_mp3 := λ _ _, Exported;
|}.

Definition empty_world (E : Env) : World E :=
  {| dirs := ∅; files := ∅; calls := [] |}.

(** Every removal fails. *)
Definition stubborn : Faults :=
  {| remove_fails := λ _ _, true; rmdir_fails := λ _, true |}.

End Demo.

(** * The other functions of [utils.py] and the page of [app.py]

    Python strings that are taken apart or compared are lists of code
    points, as before; a literal with characters outside ASCII is written
    in UTF-8 and decoded by [K]. *)

(** UTF-8 decoding of a literal: [acc] holds the bits read so far of a code
    point that needs [more] continuation bytes. *)
Fixpoint utf8_go (acc : N) (more : nat) (bs : list N) : str :=
  match bs with
  | [] => []
  | b :: bs' =>
      match more with
      | O =>
          if b <? 0x80 then b :: utf8_go 0 0 bs'
          else if b <? 0xE0 then utf8_go (b - 0xC0) 1 bs'
          else if b <? 0xF0 then utf8_go (b - 0xE0) 2 bs'
          else utf8_go (b - 0xF0) 3 bs'
      | S O => (acc * 64 + (b - 0x80)) :: utf8_go 0 0 bs'
      | S more' => utf8_go (acc * 64 + (b - 0x80)) more' bs'
      end
  end.

Definition K (s : string) : str := utf8_go 0 0 (U s).

(** The two entries of the response of the search service that the code
    reads; [None] is a missing key. *)
Record SearchResponse := {
  answer : option str;
  results : option (list (gmap string str));
}.

(** The requests made to the search service and to the text model. *)
Inductive Request :=
  | SearchRequest (api_key query : str) (search_depth : string) (max_results : Z)
      (include_answer : bool)
  | GenerateRequest (api_key : str) (model : string) (prompt : str)
      (stream : bool).

(** What is drawn on the page, in the order in which it is drawn.  The
    fixed layout (titles, input boxes, dividers, the usage notes, the
    button) is not recorded; the values of the input boxes and of the
    button are the inputs of the page. *)
Inductive Ui :=
  | UiWarning (body : string)
  | UiError (body : string)
  | UiProgress (value : nat)
  | UiStatus (body : string)
  | UiSpinner (text : string)
  | UiMarkdown (body : string)
  | UiPreviewCleared
  | UiInfo (body : string)
  | UiSuccess (body : string)
  | UiSubheader (body : string)
  | UiAudio (data : list N) (format : string)
  | UiDownload (label : string) (data : list N) (file_name : str) (mime : string)
  | UiExpander (label : string)
  | UiText (body : str).

(** [st.session_state]: a key that is missing and a key that holds [None]
    are both [None], since every key is set before it is read. *)
Record Session := {
  generated_script : option str;
  generated_audio : option (list N);
  generated_topic : option str;
}.

(** The values of the input boxes and of the button. *)
Record Inputs := {
  gemini_api_key : str;
  tavily_api_key : str;
  topic : str;
  generate_button : bool;
}.

(** The collaborators of the page: what the search service answers, what
    the text model returns (the text of a response, or the chunks of a
    stream followed by an error, if any), whether ffmpeg is on the path,
    the name of a new temporary file (a path outside the given set), the
    bytes of an exported file, and which calls of [os.unlink] fail. *)
Record Services (E : Env) := {
  tavily_search : str → str → Z → SearchResponse + string;
  generate_content : str → str → str + string;
  generate_content_stream : str → str → list str * option string;
  which_ffmpeg : bool;
  temp_name : gset string → string;
  mp3_bytes : AudioSegment E → list N;
  unlink_fails : string → bool;
}.
Arguments tavily_search {E} s.
Arguments generate_content {E} s.
Arguments generate_content_stream {E} s.
Arguments which_ffmpeg {E} s.
Arguments temp_name {E} s.
Arguments mp3_bytes {E} s.
Arguments unlink_fails {E} s.

(** The world of the page: the world of the pipeline, the empty files made
    by [NamedTemporaryFile], the requests made, the session and the page. *)
Record AppWorld (E : Env) := {
  base : World E;
  empty_files : gset string;
  requests : list Request;
  session : Session;
  screen : list Ui;
}.
Arguments base {E} a.
Arguments empty_files {E} a.
Arguments requests {E} a.
Arguments session {E} a.
Arguments screen {E} a.

Definition App (E : Env) (A : Type) : Type := AppWorld E → result A * AppWorld E.

Global Instance App_ret (E : Env) : MRet (App E) := λ A a w, (Ok a, w).

Global Instance App_bind (E : Env) : MBind (App E) := λ A B f m w,
  match m w with
  | (Ok a, w') => f a w'
  | (Raise e, w') => (Raise e, w')
  end.

Section Application.
Context {E : Env}.
Variable Sv : Services E.
Variable F : Faults.

Definition app_raise {A} (e : exn) : App E A := λ w, (Raise e, w).

(** A call of the pipeline, in the world of the page. *)
Definition in_pipeline {A} (m : M E A) : App E A := λ w,
  let '(r, b) := m (base w) in
  (r, {| base := b; empty_files := empty_files w; requests := requests w;
         session := session w; screen := screen w |}).

Definition request (r : Request) : App E () := λ w,
  (Ok (), {| base := base w; empty_files := empty_files w;
             requests := requests w ++ [r];
             session := session w; screen := screen w |}).

Definition draw (u : Ui) : App E () := λ w,
  (Ok (), {| base := base w; empty_files := empty_files w;
             requests := requests w;
             session := session w; screen := screen w ++ [u] |}).

Definition set_session (s : Session) : App E () := λ w,
  (Ok (), {| base := base w; empty_files := empty_files w;
             requests := requests w;
             session := s; screen := screen w |}).

Definition get_session : App E Session := λ w, (Ok (session w), w).

(** The answer of a collaborator, or the error it raises. *)
Definition answered {A} (a : A + string) : App E A :=
  match a with
  | inl x => mret x
  | inr msg => app_raise (ServiceError msg)
  end.

(** [try: body except Exception as e: handler] *)
Definition app_except {A} (body : App E A) (handler : exn → App E A) : App E A := λ w,
  match body w with
  | (Ok a, w') => (Ok a, w')
  | (Raise e, w') => handler e w'
  end.

(** [try: body except: pass] *)
Definition app_except_pass (body : App E ()) : App E () := λ w,
  (Ok (), (body w).2).

(** ** [utils.py] *)

(** One section of the text of [search_web], for result number [i]. *)
Definition result_section (i : nat) (result : gmap string str) : str :=
  let title := default (K "제목 없음") (result !! "title") in
  let content := default [] (result !! "content") in
  let url := default [] (result !! "url") in
  K "[자료 " ++ U (pretty i) ++ K "] " ++ title ++ [0x0A] ++ K "출처: " ++ url
    ++ [0x0A] ++ K "내용: " ++ content ++ [0x0A; 0x0A].

Definition search_web (query tavily_api_key : str) (max_results : Z) : App E str :=
  _ ← request (SearchRequest tavily_api_key query "advanced" max_results true);
  response ← answered (tavily_search Sv tavily_api_key query max_results);
  let combined_text := [] in
  let combined_text :=
    match answer response with
    | Some a => if bool_decide (a = []) then combined_text
                else combined_text ++ K "요약: " ++ a ++ [0x0A; 0x0A]
    | None => combined_text
    end in
  let combined_text :=
    foldl (λ combined_text '(i, result), combined_text ++ result_section i result)
      combined_text
      (imap (λ i result, (S i, result)) (default [] (results response))) in
  mret combined_text.

Definition summary_prompt (topic search_results : str) : str :=
  (K "다음은 " ++ [0x22] ++ []) ++ topic ++ ([] ++ [0x22] ++ K "에 대한 웹 검색 결과입니다. 이 정보를 정리하고 요약해주세요.

검색 결과:
") ++ search_results ++ (K "

다음 형식으로 정리해주세요:
1. 핵심 요약: 주제에 대한 전체적인 요약 (3-5문장)
2. 주요 포인트: 팟캐스트에서 다룰 만한 핵심 내용들 (bullet points)
3. 흥미로운 사실: 대화 소재로 활용할 수 있는 흥미로운 정보
4. 출처 정리: 참고한 주요 출처 목록

정리된 내용:").

Definition summarize_search_results (topic search_results gemini_api_key : str)
    : App E str :=
  let prompt := summary_prompt topic search_results in
  _ ← request (GenerateRequest gemini_api_key "gemini-2.0-flash" prompt false);
  text ← answered (generate_content Sv gemini_api_key prompt);
  mret (if bool_decide (text = []) then search_results else text).

Definition _build_script_prompt (topic search_results : str) : str :=
  (K "당신은 전문 팟캐스트 작가입니다. 다음 주제와 자료를 바탕으로 흥미롭고 자연스러운 2인 대화 팟캐스트 대본을 작성해주세요.

주제: ") ++ topic ++ (K "

참고 자료:
") ++ search_results ++ (K "

대본 작성 규칙:
1. Host(진행자)와 Guest(게스트 전문가) 두 명의 대화로 구성하세요.
2. 자연스럽고 친근한 대화체를 사용하세요.
3. 주제에 대한 핵심 정보를 재미있게 전달하세요.
4. 대화는 5-10분 분량(약 15-25개의 대화 턴)으로 작성하세요.
5. 반드시 다음 형식으로 작성하세요:

Host: [진행자의 대사]
Guest: [게스트의 대사]
Host: [진행자의 대사]
...

대본을 시작하세요:").

Definition generate_script (topic search_results gemini_api_key : str) : App E str :=
  let prompt := _build_script_prompt topic search_results in
  _ ← request (GenerateRequest gemini_api_key "gemini-2.0-flash" prompt false);
  answered (generate_content Sv gemini_api_key prompt).

(** [generate_script_streaming]: the chunks the generator yields, and the
    error that ends the iteration, if any. *)
Definition generate_script_streaming (topic search_results gemini_api_key : str)
    : App E (list str * option exn) :=
  let prompt := _build_script_prompt topic search_results in
  _ ← request (GenerateRequest gemini_api_key "gemini-2.0-flash" prompt true);
  let '(chunks, failure) := generate_content_stream Sv gemini_api_key prompt in
  mret (filter (λ text, text ≠ []) chunks, ServiceError <$> failure).

Definition check_ffmpeg : App E bool := mret (which_ffmpeg Sv).

(** ** [app.py] *)

(** [tempfile.NamedTemporaryFile(delete=False, suffix=".mp3")]: a new, empty
    file; its name. *)
Definition named_temporary_file : App E string := λ w,
  let path := temp_name Sv (dom (files (base w)) ∪ empty_files w) in
  (Ok path, {| base := base w; empty_files := {[path]} ∪ empty_files w;
               requests := requests w; session := session w;
               screen := screen w |}).

(** [open(path, "rb").read()] *)
Definition read_bytes (path : string) : App E (list N) := λ w,
  match files (base w) !! path with
  | Some a => (Ok (mp3_bytes Sv a), w)
  | None =>
      if bool_decide (path ∈ empty_files w) then (Ok [], w)
      else (Raise (OSError "No such file or directory"), w)
  end.

(** [os.unlink] *)
Definition unlink (path : string) : App E () := λ w,
  if unlink_fails Sv path then (Raise (OSError "Operation not permitted"), w)
  else if bool_decide (path ∈ dom (files (base w)) ∪ empty_files w)
  then (Ok (), {| base := {| dirs := dirs (base w);
                             files := delete path (files (base w));
                             calls := calls (base w) |};
                  empty_files := empty_files w ∖ {[path]};
                  requests := requests w; session := session w;
                  screen := screen w |})
  else (Raise (OSError "No such file or directory"), w).

Definition ffmpeg_warning : string := "
            ⚠️ **ffmpeg가 설치되지 않았습니다**
            
            오디오 생성을 위해 ffmpeg가 필요합니다.
            
            **설치 방법:**
            - Mac: `brew install ffmpeg`
            - Ubuntu: `sudo apt-get install ffmpeg`
            ".

(** The sidebar. *)
Definition sidebar : App E () :=
  check_ffmpeg ≫= λ ok : bool,
  if ok then mret () else draw (UiWarning ffmpeg_warning).

(** "Initialize session state for results": nothing to do, see [Session]. *)
Definition initialize_session : App E () := mret ().

(** The body of the [try] statement of [main]. *)
Definition generation (i : Inputs) : App E () :=
  _ ← draw (UiStatus "🔍 **Step 1/4: 관련 정보를 검색하는 중...**");
  _ ← draw (UiProgress 10);
  search_results ← search_web (topic i) (tavily_api_key i) 5;
  _ ← draw (UiProgress 20);
  _ ← draw (UiStatus "✅ 검색 완료! 관련 자료를 찾았습니다.");
  _ ← draw (UiStatus "📋 **Step 2/4: 검색 결과를 정리하는 중... (Gemini 2.0 Flash)**");
  _ ← draw (UiProgress 25);
  _ ← draw (UiSpinner "검색 결과를 정리하고 있습니다...");
  summarized_results ←
    summarize_search_results (topic i) search_results (gemini_api_key i);
  _ ← draw (UiProgress 35);
  _ ← draw (UiStatus "✅ 자료 정리 완료!");
  _ ← draw (UiStatus "✍️ **Step 3/4: AI가 팟캐스트 대본을 작성하는 중... (Gemini 2.0 Flash)**");
  _ ← draw (UiProgress 40);
  _ ← draw (UiMarkdown "##### 📝 대본 생성 중...");
  _ ← draw (UiSpinner "Gemini가 대본을 작성하고 있습니다...");
  script ← generate_script (topic i) summarized_results (gemini_api_key i);
  _ ← draw (UiProgress 60);
  _ ← draw (UiStatus "✅ 대본 작성 완료!");
  _ ← draw UiPreviewCleared;
  _ ← draw (UiStatus "🎵 **Step 4/4: 음성을 생성하는 중...**");
  _ ← draw (UiProgress 65);
  _ ← draw (UiInfo "🎤 음성 합성을 준비하고 있습니다...");
  audio_path ← named_temporary_file;
  _ ← draw (UiInfo "🎤 Host와 Guest의 대화를 음성으로 변환하는 중... (약 30초~1분 소요)");
  _ ← in_pipeline (generate_podcast_audio F script audio_path);
  _ ← draw (UiProgress 95);
  audio_bytes ← read_bytes audio_path;
  _ ← set_session {| generated_script := Some script;
                     generated_audio := Some audio_bytes;
                     generated_topic := Some (topic i) |};
  _ ← draw (UiSuccess "✅ 음성 합성 완료!");
  _ ← draw (UiProgress 100);
  _ ← draw (UiStatus "🎉 **팟캐스트 생성 완료!**");
  app_except_pass (unlink audio_path).

(** The [except] clause of [main]. *)
Definition report (e : exn) : App E () :=
  _ ← draw (UiProgress 100);
  _ ← draw (UiStatus EmptyString);
  draw (UiError ("❌ 오류가 발생했습니다: " +:+ str_of_exn e)).

(** [saved_topic[:20].replace(' ', '_')] *)
Definition file_stem (saved_topic : str) : str :=
  (λ c, if c =? 0x20 then 0x5F else c) <$> take 20 saved_topic.

(** "Display results from session state". *)
Definition display_results : App E () :=
  s ← get_session;
  match generated_script s, generated_audio s with
  | Some script, Some audio =>
      if bool_decide (script ≠ [] ∧ audio ≠ [])
      then
        let saved_topic :=
          match generated_topic s with
          | Some t => if bool_decide (t = []) then U "podcast" else t
          | None => U "podcast"
          end in
        _ ← draw (UiSuccess "🎉 팟캐스트가 성공적으로 생성되었습니다!");
        _ ← draw (UiSubheader "🎧 생성된 팟캐스트");
        _ ← draw (UiAudio audio "audio/mp3");
        _ ← draw (UiDownload "📥 오디오 다운로드" audio
                    (U "podcast_" ++ file_stem saved_topic ++ U ".mp3") "audio/mp3");
        _ ← draw (UiExpander "📝 생성된 대본 보기");
        _ ← draw (UiText script);
        draw (UiDownload "💾 대본 저장" script
                (U "podcast_script_" ++ file_stem saved_topic ++ U ".txt") "text/plain")
      else mret ()
  | _, _ => mret ()
  end.

(** [main]: a [return] in the validation ends the run, so that nothing
    more is drawn. *)
Definition main (i : Inputs) : App E () :=
  _ ← sidebar;
  _ ← initialize_session;
  if generate_button i then
    if bool_decide (gemini_api_key i = [])
    then draw (UiError "❌ Gemini API 키를 입력해주세요.")
    else if bool_decide (tavily_api_key i = [])
    then draw (UiError "❌ Tavily API 키를 입력해주세요.")
    else if bool_decide (strip (topic i) = [])
    then draw (UiError "❌ 팟캐스트 주제를 입력해주세요.")
    else
      check_ffmpeg ≫= λ ok : bool,
      if negb ok
      then draw (UiError "❌ ffmpeg가 설치되어 있지 않습니다. 사이드바의 안내를 참고해주세요.")
      else
        _ ← draw (UiProgress 0);
        _ ← app_except (generation i) report;
        display_results
  else display_results.

End Application.

(** ** Concrete collaborators for the page *)
Module DemoApp.

(** A speech service that is out of reach for the Guest voice. *)
Definition env_offline_guest : Env := {|
  mp3 := Demo.audio;
  AudioSegment := Demo.audio;
  seg_add := Demo.add;
  seg_silent := Demo.silent;
  communicate_save := λ c,
    if String.eqb (call_voice c) GUEST_VOICE
    then {| written := None; raised := Some "No audio was received" |}
    else {| written := Some (Demo.speak c); raised := None |};
  decode_mp3 := inl;
  export_mp3 := λ _ _, Exported;
|}.

Definition response : SearchResponse := {|
  answer := Some (U "Tea is a drink.");
  results := Some [ {[ "title" := U "Tea"; "url" := U "https://tea.example";
                       "content" := U "Leaves in hot water." ]};
                    {[ "content" := U "More about tea." ]} ];
|}.

(** One byte per clip: enough to tell an exported file from an empty one. *)
Definition bytes_of (a : Demo.audio) : list N :=
  (λ k, match k with Demo.Speech _ _ => 1 | Demo.Silence => 0 end) <$> Demo.clips a.

(** Collaborators that all work; the text model answers the request for a
    summary with nothing and the request for a script with two lines. *)
Definition services : Services Demo.env := {|
  tavily_search := λ _ _ _, inl response;
  generate_content := λ _ prompt,
    if bool_decide (take 3 prompt = take 3 (_build_script_prompt [] []))
    then inl (U ("Host: Welcome!" +:+ lf +:+ "Guest: Thanks for having me."))
    else inl [];
  generate_content_stream := λ _ _, ([U "Host: "; []; U "Hi"], None);
  which_ffmpeg := true;
  temp_name := λ X, fresh X;
  mp3_bytes := (bytes_of : AudioSegment Demo.env → list N);
  unlink_fails := λ _, false;
|}.

(** The search service is down. *)
Definition services_no_search : Services Demo.env := {|
  tavily_search := λ _ _ _, inr "Unauthorized";
  generate_content := generate_content services;
  generate_content_stream := generate_content_stream services;
  which_ffmpeg := true;
  temp_name := λ X, fresh X;
  mp3_bytes := (bytes_of : AudioSegment Demo.env → list N);
  unlink_fails := λ _, false;
|}.

(** The text model returns an empty script. *)
Definition services_no_script : Services Demo.env := {|
  tavily_search := λ _ _ _, inl response;
  generate_content := λ _ _, inl [];
  generate_content_stream := generate_content_stream services;
  which_ffmpeg := true;
  temp_name := λ X, fresh X;
  mp3_bytes := (bytes_of : AudioSegment Demo.env → list N);
  unlink_fails := λ _, false;
|}.

Definition inputs : Inputs := {|
  gemini_api_key := U "g-key";
  tavily_api_key := U "t-key";
  topic := U "the history of tea, leaf by leaf";
  generate_button := true;
|}.

(** The same inputs with a blank topic. *)
Definition inputs_blank : Inputs := {|
  gemini_api_key := U "g-key";
  tavily_api_key := U "t-key";
  topic := U "   ";
  generate_button := true;
|}.

(** A rerun in which the button was not pressed. *)
Definition inputs_idle : Inputs := {|
  gemini_api_key := U "g-key";
  tavily_api_key := U "t-key";
  topic := U "the history of tea, leaf by leaf";
  generate_button := false;
|}.

Definition no_session : Session :=
  {| generated_script := None; generated_audio := None; generated_topic := None |}.

Definition empty_world (E : Env) : AppWorld E :=
  {| base := Demo.empty_world E; empty_files := ∅; requests := [];
     session := no_session; screen := [] |}.

(** A session that holds an earlier podcast. *)
Definition earlier : Session :=
  {| generated_script := Some (U "Host: Hello");
     generated_audio := Some [1; 0];
     generated_topic := Some (U "older topic") |}.

Definition world_with (E : Env) (s : Session) : AppWorld E :=
  {| base := Demo.empty_world E; empty_files := ∅; requests := [];
     session := s; screen := [] |}.

End DemoApp.

(** The text that [search_web] builds from a response. *)
Definition search_text (response : SearchResponse) : str :=
  match answer response with
  | Some a => if bool_decide (a = []) then [] else K "요약: " ++ a ++ [0x0A; 0x0A]
  | None => []
  end ++ mjoin (imap (λ i result, result_section (S i) result)
                  (default [] (results response))).

(** What [display_results] draws for a session. *)
Definition results_view (s : Session) : list Ui :=
  match generated_script s, generated_audio s with
  | Some script, Some audio =>
      if bool_decide (script ≠ [] ∧ audio ≠ [])
      then
        let saved_topic :=
          match generated_topic s with
          | Some t => if bool_decide (t = []) then U "podcast" else t
          | None => U "podcast"
          end in
        [UiSuccess "🎉 팟캐스트가 성공적으로 생성되었습니다!";
         UiSubheader "🎧 생성된 팟캐스트";
         UiAudio audio "audio/mp3";
         UiDownload "📥 오디오 다운로드" audio
           (U "podcast_" ++ file_stem saved_topic ++ U ".mp3") "audio/mp3";
         UiExpander "📝 생성된 대본 보기";
         UiText script;
         UiDownload "💾 대본 저장" script
           (U "podcast_script_" ++ file_stem saved_topic ++ U ".txt") "text/plain"]
      else []
  | _, _ => []
  end.

(** What the sidebar draws. *)
Definition sidebar_view {E : Env} (Sv : Services E) : list Ui :=
  if which_ffmpeg Sv then [] else [UiWarning ffmpeg_warning].

(** The values given to the progress bar. *)
Definition progress_values (evs : list Ui) : list nat :=
  omap (λ u, match u with UiProgress n => Some n | _ => None end) evs.

(** The errors drawn. *)
Definition errors (evs : list Ui) : list string :=
  omap (λ u, match u with UiError m => Some m | _ => None end) evs.

(** The session holds nothing, or a script in which turns are found, its
    audio and a topic that is not blank. *)
Definition consistent (s : Session) : Prop :=
  s = {| generated_script := None; generated_audio := None;
         generated_topic := None |} ∨
  ∃ script audio t,
    s = {| generated_script := Some script; generated_audio := Some audio;
           generated_topic := Some t |} ∧
    parse_script script ≠ [] ∧ strip t ≠ [].

(** The inputs pass the validation of [main]. *)
Definition valid {E : Env} (Sv : Services E) (i : Inputs) : Prop :=
  generate_button i = true ∧ gemini_api_key i ≠ [] ∧ tavily_api_key i ≠ [] ∧
  strip (topic i) ≠ [] ∧ which_ffmpeg Sv = true.

(** The world after [evs] were drawn. *)
Definition drawn {E : Env} (evs : list Ui) (w : AppWorld E) : AppWorld E :=
  {| base := base w; empty_files := empty_files w; requests := requests w;
     session := session w; screen := screen w ++ evs |}.

(** What the [except] clause of [main] draws for the exception [e]. *)
Definition failure (e : exn) : list Ui :=
  [UiProgress 100; UiStatus EmptyString;
   UiError ("❌ 오류가 발생했습니다: " +:+ str_of_exn e)].

(** * Auxiliary definitions

    Notions used to state and prove the properties below. *)

(** The first character of a label. *)
Definition initial (c : N) : bool :=
  lit_ignorecase 0x48 c || lit_ignorecase 0x47 c.

(** [starts_with ps s]: the characters of [s] pass the tests [ps], one by
    one.  Both the lookahead and the label are such prefix tests. *)
Fixpoint starts_with (ps : list (N → bool)) (s : str) : bool :=
  match ps with
  | [] => true
  | p :: ps' =>
      match s with
      | c :: s' => p c && starts_with ps' s'
      | [] => false
      end
  end.

Definition colon_test (c : N) : bool := c =? 0x3A.

Definition tests (pat : str) : list (N → bool) :=
  (lit_ignorecase <$> pat) ++ [colon_test].

(** The first element of [Re.dots s] whose rest passes the lookahead. *)
Fixpoint lazy_dots (s : str) : option (str * str) :=
  match s with
  | [] => None
  | c :: s' =>
      if Re.lookahead s' then Some ([c], s')
      else (λ '(b, r), (c :: b, r)) <$> lazy_dots s'
  end.

(** A label as it may be spelled in a script. *)
Definition is_label (lab : str) : Prop :=
  Re.word (U "Host") lab = [(lab, [])] ∨ Re.word (U "Guest") lab = [(lab, [])].

(** What [parse_script] makes of one match of the pattern. *)
Definition turn_of_match (m : str * str) : option (str * str) :=
  let cleaned_text := strip m.2 in
  if bool_decide (cleaned_text ≠ []) then Some (capitalize m.1, cleaned_text)
  else None.

(** No label followed by a colon begins anywhere in [s]. *)
Fixpoint label_free (s : str) : bool :=
  match s with
  | [] => true
  | _ :: s' => negb (Re.label_colon s) && label_free s'
  end.

(** A labelled turn as it is written in a script: the label, the white
    space after the colon and the text up to the next label or the end of
    the script. *)
Definition chunk : Type := str * str * str.

Definition render (k : chunk) : str :=
  let '(lab, ws, body) := k in lab ++ 0x3A :: ws ++ body.

(** The text begins with a character that is not white space, and no label
    begins in it after its first character. *)
Definition wf_chunk (k : chunk) : Prop :=
  let '(lab, ws, body) := k in
  is_label lab ∧ forallb isspace ws = true ∧
  match body with
  | c :: b => isspace c = false ∧ label_free b = true
  | [] => False
  end.

Definition turn_of_chunk (k : chunk) : str * str :=
  let '(lab, _, body) := k in (capitalize lab, strip body).

(** The call made for turn [i]. *)
Definition call_of (temp_dir i : nat) (turn : str * str) : TtsCall :=
  {| call_text := turn.2; call_voice := resolve_voice turn.1;
     call_rate := "+20%"; call_path := segment_file temp_dir i |}.

(** The calls made for the turns, from turn [i] on. *)
Fixpoint calls_from (temp_dir i : nat) (turns : list (str * str)) : list TtsCall :=
  match turns with
  | [] => []
  | turn :: turns' => call_of temp_dir i turn :: calls_from temp_dir (S i) turns'
  end.

(** The call [c] leaves a file that decodes to [seg]. *)
Definition synthesized (E : Env) (c : TtsCall) (seg : AudioSegment E) : Prop :=
  ∃ b, communicate_save E c = {| written := Some b; raised := None |} ∧
       decode_mp3 E b = inl seg.

(** Each segment followed by the pause. *)
Definition with_pauses (E : Env) (segs : list (AudioSegment E)) : list (AudioSegment E) :=
  segs ≫= λ seg, [seg; seg_silent E 500].

(** The call [c] leaves a file that can be loaded: the service raises
    nothing and writes a file, and the decoder accepts it. *)
Definition loads (E : Env) (c : TtsCall) : bool :=
  match raised (communicate_save E c), written (communicate_save E c) with
  | None, Some b => match decode_mp3 E b with inl _ => true | inr _ => false end
  | _, _ => false
  end.

(** The calls of [cs] up to and including the first one that leaves no file
    that can be loaded. *)
Fixpoint until_failure (E : Env) (cs : list TtsCall) : list TtsCall :=
  match cs with
  | [] => []
  | c :: cs' => c :: if loads E c then until_failure E cs' else []
  end.

(** The world [w'] differs from [w] at most inside the directory [d], which
    still exists if it did. *)
Definition same_outside {E : Env} (d : nat) (w w' : World E) : Prop :=
  delete d (dirs w') = delete d (dirs w) ∧
  (is_Some (dirs w !! d) → is_Some (dirs w' !! d)) ∧
  files w' = files w.

(** "Combine all segments": the left fold of [+] over a non-empty list. *)
Definition combine (E : Env) (l : list (AudioSegment E)) : option (AudioSegment E) :=
  match l with
  | [] => None
  | first :: rest => Some (foldl (seg_add E) first rest)
  end.

(** [needle] occurs in [hay]. *)
Definition mentions (hay needle : string) : bool :=
  match index 0 needle hay with Some _ => true | None => false end.

(** The texts [ts] occur in [s] one after the other, in this order, without
    overlap. *)
Fixpoint slices_in_order (ts : list str) (s : str) : Prop :=
  match ts with
  | [] => True
  | t :: ts' => ∃ a s', s = a ++ t ++ s' ∧ slices_in_order ts' s'
  end.

(** * Properties of the parser *)

(** ** Lists of matches *)

Lemma head_bind_cons {A B} (f : A → list B) (x : A) (l : list A) :
  head ((x :: l) ≫= f) = match head (f x) with
                          | Some y => Some y
                          | None => head (l ≫= f)
                          end.
Proof. simpl. destruct (f x); reflexivity. Qed.

Lemma head_bind_elem {A B} (f : A → list B) (l : list A) (y : B) :
  head (l ≫= f) = Some y → ∃ x, x ∈ l ∧ head (f x) = Some y.
Proof.
  induction l as [|x l IH]; [discriminate|].
  rewrite head_bind_cons. destruct (head (f x)) as [z|] eqn:Hz.
  - intros [= ->]. exists x. split; [left | exact Hz].
  - intros [x' [Hin Hx']]%IH. exists x'. split; [by right | exact Hx'].
Qed.

(** ** Characters *)

Lemma lit_ignorecase_h c : lit_ignorecase 0x48 c = true ↔ c = 0x48 ∨ c = 0x68.
Proof.
  unfold lit_ignorecase, to_lower. simpl.
  destruct ((0x41 <=? c) && (c <=? 0x5A)) eqn:Hr; rewrite orb_false_r, N.eqb_eq.
  - apply andb_true_iff in Hr as [?%N.leb_le ?%N.leb_le]. lia.
  - split; [intros ->; by right | intros [->| ->]; [discriminate | done]].
Qed.

Lemma lit_ignorecase_g c : lit_ignorecase 0x47 c = true ↔ c = 0x47 ∨ c = 0x67.
Proof.
  unfold lit_ignorecase, to_lower. simpl.
  destruct ((0x41 <=? c) && (c <=? 0x5A)) eqn:Hr; rewrite orb_false_r, N.eqb_eq.
  - apply andb_true_iff in Hr as [?%N.leb_le ?%N.leb_le]. lia.
  - split; [intros ->; by right | intros [->| ->]; [discriminate | done]].
Qed.

Lemma initial_cases c :
  initial c = true → c = 0x48 ∨ c = 0x68 ∨ c = 0x47 ∨ c = 0x67.
Proof.
  unfold initial. intros [H|H]%orb_true_iff.
  - apply lit_ignorecase_h in H. tauto.
  - apply lit_ignorecase_g in H. tauto.
Qed.

(** ** Prefix tests *)

Lemma starts_with_app ps u v :
  starts_with ps u = true → starts_with ps (u ++ v) = true.
Proof.
  revert u. induction ps as [|p ps IH]; intros [|c u]; simpl; try done.
  intros [-> ?]%andb_true_iff. simpl. by apply IH.
Qed.

Lemma starts_with_app_inv ps u c v :
  Forall (λ p, p c = false) ps →
  starts_with ps (u ++ c :: v) = true → starts_with ps u = true.
Proof.
  intros Hps. revert u. induction Hps as [|p ps Hp Hps IH]; intros u; [done|].
  destruct u as [|a u]; simpl.
  - by rewrite Hp.
  - intros [-> ?]%andb_true_iff. simpl. by apply IH.
Qed.

(** ** Labels *)

Lemma U_Host : U "Host" = [0x48; 0x6F; 0x73; 0x74].
Proof. reflexivity. Qed.

Lemma U_Guest : U "Guest" = [0x47; 0x75; 0x65; 0x73; 0x74].
Proof. reflexivity. Qed.

Lemma word_sound pat s m r :
  (m, r) ∈ Re.word pat s →
  s = m ++ r ∧ Forall2 (λ p c, lit_ignorecase p c = true) pat m.
Proof.
  revert s m r. induction pat as [|p pat IH]; intros s m r; simpl.
  - intros H%list_elem_of_singleton. injection H as -> ->. by split.
  - destruct s as [|c s]; [by intros ?%elem_of_nil|].
    destruct (lit_ignorecase p c) eqn:Hpc; [|by intros ?%elem_of_nil].
    intros [[m' r'] [Heq Hin]]%list_elem_of_fmap. injection Heq as -> ->.
    apply IH in Hin as [-> HF]. split; [done | by constructor].
Qed.

Lemma word_complete pat m r :
  Forall2 (λ p c, lit_ignorecase p c = true) pat m →
  Re.word pat (m ++ r) = [(m, r)].
Proof.
  induction 1 as [|p c pat m Hpc _ IH]; simpl; [done|].
  by rewrite Hpc, IH.
Qed.

Lemma word_extend pat lab r :
  Re.word pat lab = [(lab, [])] → Re.word pat (lab ++ r) = [(lab, r)].
Proof.
  intros H. apply word_complete.
  eapply (word_sound pat lab lab []). rewrite H. left.
Qed.

Lemma word_initial_clash s :
  Re.word (U "Host") s = [] ∨ Re.word (U "Guest") s = [].
Proof.
  rewrite U_Host, U_Guest. destruct s as [|c s]; [by left|].
  cbn [Re.word].
  destruct (lit_ignorecase 0x48 c) eqn:Hh; [|by left].
  destruct (lit_ignorecase 0x47 c) eqn:Hg; [|by right].
  apply lit_ignorecase_h in Hh. apply lit_ignorecase_g in Hg. lia.
Qed.

Lemma is_label_initial lab :
  is_label lab → ∃ c lab', lab = c :: lab' ∧ initial c = true.
Proof.
  unfold initial. intros [H|H].
  - assert (HF : (lab, []) ∈ Re.word (U "Host") lab) by (rewrite H; left).
    apply word_sound in HF as [_ HF]. rewrite U_Host in HF.
    inversion HF as [|p c pat lab' Hpc HF']; subst.
    exists c, lab'. by rewrite Hpc.
  - assert (HF : (lab, []) ∈ Re.word (U "Guest") lab) by (rewrite H; left).
    apply word_sound in HF as [_ HF]. rewrite U_Guest in HF.
    inversion HF as [|p c pat lab' Hpc HF']; subst.
    exists c, lab'. rewrite Hpc. split; [done | apply orb_true_r].
Qed.

Lemma label_sound s g1 r1 :
  (g1, r1) ∈ Re.label s → s = g1 ++ r1 ∧ is_label g1.
Proof.
  unfold Re.label, is_label.
  intros [H|H]%elem_of_app; apply word_sound in H as [-> HF]; (split; [done|]).
  - left. rewrite <-(app_nil_r g1) at 1. by apply word_complete.
  - right. rewrite <-(app_nil_r g1) at 1. by apply word_complete.
Qed.

Lemma label_complete lab r :
  is_label lab → Re.label (lab ++ r) = [(lab, r)].
Proof.
  unfold Re.label. intros [H|H]; apply (word_extend _ _ r) in H;
    destruct (word_initial_clash (lab ++ r)) as [H'|H']; rewrite H in *;
    try discriminate; by rewrite H'.
Qed.

(** ** The lookahead is a prefix test *)

Lemma word_colon pat s :
  bool_decide ((Re.word pat s ≫= λ '(_, r), Re.colon r) ≠ [])
  = starts_with (tests pat) s.
Proof.
  revert s. induction pat as [|p pat IH]; intros [|c s]; simpl; try done.
  - unfold colon_test. by destruct (c =? 0x3A).
  - destruct (lit_ignorecase p c); [|done]. simpl. rewrite <-IH.
    rewrite list_fmap_bind.
    by rewrite (list_bind_ext _ (λ '(_, r), Re.colon r) _ (Re.word pat s))
      by (done || by intros [m r]).
Qed.

Lemma label_colon_spec s :
  Re.label_colon s
  = starts_with (tests (U "Host")) s || starts_with (tests (U "Guest")) s.
Proof.
  unfold Re.label_colon, Re.label. rewrite bind_app, <-!word_colon.
  destruct (Re.word (U "Host") s ≫= _), (Re.word (U "Guest") s ≫= _); done.
Qed.

Lemma label_colon_app u v :
  Re.label_colon u = true → Re.label_colon (u ++ v) = true.
Proof.
  rewrite !label_colon_spec.
  intros [H|H]%orb_true_iff; apply (starts_with_app _ _ v) in H; rewrite H;
    [done | apply orb_true_r].
Qed.

(** A label cannot begin inside [u] and end inside a text that itself
    begins with the first letter of a label. *)
Lemma label_colon_no_straddle u c v :
  u ≠ [] → initial c = true →
  Re.label_colon (u ++ c :: v) = true → Re.label_colon u = true.
Proof.
  intros Hu Hc. destruct u as [|a u]; [done|]. clear Hu.
  rewrite !label_colon_spec.
  assert (HtH : tests (U "Host") = lit_ignorecase 0x48 :: tests (U "ost")) by done.
  assert (HtG : tests (U "Guest") = lit_ignorecase 0x47 :: tests (U "uest")) by done.
  rewrite HtH, HtG, <-app_comm_cons.
  assert (Hcons : ∀ p ps x xs,
    starts_with (p :: ps) (x :: xs) = p x && starts_with ps xs) by done.
  rewrite !Hcons.
  assert (Hcs := initial_cases c Hc).
  intros [H|H]%orb_true_iff; apply andb_true_iff in H as [Ha H];
    rewrite Ha; cbn [andb]; apply starts_with_app_inv in H;
    try (rewrite H; first [done | apply orb_true_r]).
  - destruct Hcs as [->|[->|[->| ->]]]; by repeat constructor.
  - destruct Hcs as [->|[->|[->| ->]]]; by repeat constructor.
Qed.

Lemma label_colon_is_label lab r :
  is_label lab → Re.label_colon (lab ++ 0x3A :: r) = true.
Proof.
  intros H. unfold Re.label_colon. rewrite (label_complete _ _ H). done.
Qed.

(** ** The lazy body *)

Lemma dots_head_prefix (g1 : str) p s :
  head (Re.dots s ≫=
          λ '(b, r), if Re.lookahead r then [(g1, p ++ b, r)] else [])
  = (λ '(b, r), (g1, p ++ b, r)) <$> lazy_dots s.
Proof.
  revert p. induction s as [|c s IH]; intros p; [done|].
  cbn [Re.dots lazy_dots]. rewrite head_bind_cons.
  destruct (Re.lookahead s); [done|]. cbn [head].
  rewrite list_fmap_bind.
  rewrite (list_bind_ext _
    (λ '(b, r), if Re.lookahead r then [(g1, (p ++ [c]) ++ b, r)] else [])
    _ (Re.dots s)); [| intros [b r]; simpl; by rewrite <-app_assoc | done].
  rewrite IH. destruct (lazy_dots s) as [[b r]|]; simpl; [|done].
  by rewrite <-app_assoc.
Qed.

Lemma dots_head (g1 : str) s :
  head (Re.dots s ≫= λ '(g2, r4), if Re.lookahead r4 then [(g1, g2, r4)] else [])
  = (λ '(b, r), (g1, b, r)) <$> lazy_dots s.
Proof. exact (dots_head_prefix g1 [] s). Qed.

Lemma lazy_dots_sound s b r :
  lazy_dots s = Some (b, r) →
  s = b ++ r ∧ b ≠ [] ∧ Re.lookahead r = true ∧
  ∀ i, (0 < i < length b)%nat → Re.lookahead (drop i s) = false.
Proof.
  revert b r. induction s as [|c s IH]; intros b r; [done|]. simpl.
  destruct (Re.lookahead s) eqn:Hs.
  - intros [= <- <-]. repeat split; [done..|]. simpl. lia.
  - destruct (lazy_dots s) as [[b' r']|]; [|done]. intros [= <- <-].
    destruct (IH b' r' eq_refl) as (-> & Hb & Hr & Hmin). repeat split; [done..|].
    intros [|[|i]] Hi; simpl in *; [lia | done |].
    apply (Hmin (S i)). lia.
Qed.

Lemma lazy_dots_complete b r :
  b ≠ [] → Re.lookahead r = true →
  (∀ i, (0 < i < length b)%nat → Re.lookahead (drop i (b ++ r)) = false) →
  lazy_dots (b ++ r) = Some (b, r).
Proof.
  induction b as [|c b IH]; [done|]. intros _ Hr Hmin.
  rewrite <-app_comm_cons. cbn [lazy_dots].
  destruct b as [|d b].
  - rewrite app_nil_l. by rewrite Hr.
  - assert (H1 : Re.lookahead ((d :: b) ++ r) = false)
      by (apply (Hmin 1%nat); cbn [length]; lia).
    rewrite H1, IH; [done..|].
    intros i Hi. apply (Hmin (S i)). cbn [length] in *. lia.
Qed.

Lemma lazy_dots_is_Some s : s ≠ [] → is_Some (lazy_dots s).
Proof.
  induction s as [|c s IH]; [done|]. intros _. simpl.
  destruct (Re.lookahead s) eqn:Hs; [by eexists|].
  destruct IH as [[b r] ->]; [by intros -> | by eexists].
Qed.

(** ** White space after the colon *)

Lemma spaces_sound r2 r3 :
  r3 ∈ Re.spaces r2 → ∃ ws, r2 = ws ++ r3 ∧ Forall (λ c, isspace c = true) ws.
Proof.
  induction r2 as [|c r2 IH]; simpl.
  - intros ->%list_elem_of_singleton. by exists [].
  - destruct (isspace c) eqn:Hc.
    + intros [H| ->%list_elem_of_singleton]%elem_of_app; [|by exists []].
      destruct (IH H) as (ws & -> & Hws). exists (c :: ws). split; [done|].
      by constructor.
    + intros ->%list_elem_of_singleton. by exists [].
Qed.

Lemma spaces_head ws t :
  Forall (λ c, isspace c = true) ws →
  (∀ c t', t = c :: t' → isspace c = false) →
  ∃ l, Re.spaces (ws ++ t) = t :: l.
Proof.
  intros Hws Ht. induction Hws as [|c ws Hc _ [l IH]]; simpl.
  - destruct t as [|c t']; [by eexists|]. cbn [Re.spaces].
    rewrite (Ht c t' eq_refl). by eexists.
  - rewrite Hc, IH. by eexists.
Qed.

(** ** One match of the pattern *)

Lemma match_here_sound s g1 g2 rest :
  Re.match_here s = Some (g1, g2, rest) →
  ∃ ws, s = g1 ++ 0x3A :: ws ++ g2 ++ rest ∧ is_label g1 ∧
        Forall (λ c, isspace c = true) ws ∧
        lazy_dots (g2 ++ rest) = Some (g2, rest).
Proof.
  unfold Re.match_here, Re.matches_here.
  intros ([g1' r1] & Hlab & H)%head_bind_elem.
  apply head_bind_elem in H as (r2 & Hcol & H).
  apply head_bind_elem in H as (r3 & Hsp & H).
  rewrite dots_head in H.
  destruct (lazy_dots r3) as [[b r]|] eqn:Hlazy; [|done]. injection H as -> -> ->.
  apply label_sound in Hlab as [-> Hlab].
  apply spaces_sound in Hsp as (ws & -> & Hws).
  destruct (lazy_dots_sound _ _ _ Hlazy) as (-> & _).
  exists ws. repeat split; [|done..].
  destruct r1 as [|c r1]; simpl in Hcol; [by apply elem_of_nil in Hcol|].
  destruct (N.eqb_spec c 0x3A) as [->|]; [|by apply elem_of_nil in Hcol].
  by apply list_elem_of_singleton in Hcol as ->.
Qed.

Lemma match_here_complete lab ws t b r :
  is_label lab → Forall (λ c, isspace c = true) ws →
  (∀ c t', t = c :: t' → isspace c = false) →
  lazy_dots t = Some (b, r) →
  Re.match_here (lab ++ 0x3A :: ws ++ t) = Some (lab, b, r).
Proof.
  intros Hlab Hws Ht Hlazy. unfold Re.match_here, Re.matches_here.
  rewrite (label_complete _ _ Hlab), bind_singleton.
  cbn [Re.colon]. rewrite N.eqb_refl, bind_singleton.
  destruct (spaces_head ws t Hws Ht) as [l ->].
  rewrite head_bind_cons, dots_head, Hlazy. done.
Qed.

Lemma match_here_none s : Re.label_colon s = false → Re.match_here s = None.
Proof.
  unfold Re.label_colon, Re.match_here, Re.matches_here.
  intros H%bool_decide_eq_false. apply dec_stable in H.
  induction (Re.label s) as [|[g1 r1] l IH]; [done|].
  rewrite bind_cons in H. apply app_eq_nil in H as [H1 H2].
  rewrite bind_cons, H1. simpl. by apply IH.
Qed.

Lemma match_here_shorter s g1 g2 rest :
  Re.match_here s = Some (g1, g2, rest) → (length rest < length s)%nat.
Proof.
  intros (ws & -> & _)%match_here_sound. rewrite !length_app. simpl.
  rewrite !length_app. lia.
Qed.

(** ** [findall] *)

Lemma findall_from_enough n m s :
  (length s < n)%nat → (length s < m)%nat →
  Re.findall_from n s = Re.findall_from m s.
Proof.
  revert m s. induction n as [|n IH]; intros [|m] s Hn Hm; [lia..|]. simpl.
  destruct (Re.match_here s) as [[[g1 g2] rest]|] eqn:Hs.
  - apply match_here_shorter in Hs. f_equal. apply IH; lia.
  - destruct s as [|c s]; [done|]. simpl in *. apply IH; lia.
Qed.

Lemma findall_match s g1 g2 rest :
  Re.match_here s = Some (g1, g2, rest) →
  Re.findall s = (g1, g2) :: Re.findall rest.
Proof.
  intros Hs. unfold Re.findall at 1. simpl. rewrite Hs. f_equal.
  apply match_here_shorter in Hs. apply findall_from_enough; lia.
Qed.

Lemma findall_skip c s :
  Re.match_here (c :: s) = None → Re.findall (c :: s) = Re.findall s.
Proof. intros Hs. unfold Re.findall at 1. cbn [Re.findall_from length]. by rewrite Hs. Qed.

Lemma findall_elem s g1 g2 :
  (g1, g2) ∈ Re.findall s →
  ∃ t rest, Re.match_here t = Some (g1, g2, rest).
Proof.
  unfold Re.findall. generalize (S (length s)). intros n. revert s.
  induction n as [|n IH]; intros s; simpl; [by intros ?%elem_of_nil|].
  destruct (Re.match_here s) as [[[g1' g2'] rest]|] eqn:Hs.
  - intros [[= -> ->]|H]%elem_of_cons; [by exists s, rest | by eapply IH].
  - destruct s as [|c s]; [by intros ?%elem_of_nil | apply IH].
Qed.

(** ** [strip] *)

Lemma lstrip_spaces ws t :
  Forall (λ c, isspace c = true) ws → lstrip (ws ++ t) = lstrip t.
Proof. induction 1 as [|c ws Hc _ IH]; simpl; [done | by rewrite Hc]. Qed.

Lemma lstrip_suffix s :
  ∃ a, s = a ++ lstrip s ∧ Forall (λ c, isspace c = true) a.
Proof.
  induction s as [|c s (a & IH & Ha)]; [by exists []|]. simpl.
  destruct (isspace c) eqn:Hc; [|by exists []].
  exists (c :: a). split; [by rewrite IH at 1 | by constructor].
Qed.

Lemma rstrip_prefix s :
  ∃ b, s = rstrip s ++ b ∧ Forall (λ c, isspace c = true) b.
Proof.
  unfold rstrip. destruct (lstrip_suffix (reverse s)) as (a & Hs & Ha).
  exists (reverse a). split; [|by apply Forall_reverse].
  rewrite <-reverse_app, <-Hs. by rewrite reverse_involutive.
Qed.

Lemma strip_middle s : ∃ a b, s = a ++ strip s ++ b.
Proof.
  unfold strip. destruct (lstrip_suffix s) as (a & Hs & _).
  destruct (rstrip_prefix (lstrip s)) as (b & Hb & _).
  exists a, b. by rewrite <-Hb.
Qed.

Lemma rstrip_spaces b r :
  Forall (λ c, isspace c = true) r → rstrip (b ++ r) = rstrip b.
Proof.
  intros Hr. unfold rstrip. rewrite reverse_app, lstrip_spaces; [done|].
  by apply Forall_reverse.
Qed.

Lemma rstrip_nil s : rstrip s = [] → Forall (λ c, isspace c = true) s.
Proof. destruct (rstrip_prefix s) as (b & Hs & Hb). intros H. by rewrite Hs, H. Qed.

Lemma strip_text c b r :
  isspace c = false → Forall (λ x, isspace x = true) r →
  strip ((c :: b) ++ r) = strip (c :: b) ∧ strip (c :: b) ≠ [].
Proof.
  intros Hc Hr. unfold strip. rewrite <-app_comm_cons. simpl. rewrite Hc.
  split; [by apply (rstrip_spaces (c :: b))|].
  intros H%rstrip_nil. apply Forall_cons in H as [H _]. congruence.
Qed.

(** ** [parse_script] maps and filters the matches, in their order *)

Lemma foldl_turns (acc : list (str * str)) (l : list (str * str)) :
  foldl (λ parsed '(speaker, text),
           let cleaned_text := strip text in
           if bool_decide (cleaned_text ≠ [])
           then parsed ++ [(capitalize speaker, cleaned_text)]
           else parsed) acc l
  = acc ++ omap turn_of_match l.
Proof.
  revert acc. induction l as [|[speaker text] l IH]; intros acc; simpl.
  - by rewrite app_nil_r.
  - rewrite IH. unfold turn_of_match. simpl.
    destruct (bool_decide (strip text ≠ [])); [|done].
    by rewrite <-app_assoc.
Qed.

Lemma parse_script_omap script :
  parse_script script = omap turn_of_match (Re.findall script).
Proof. unfold parse_script. simpl. by rewrite foldl_turns. Qed.

(** ** Scripts made of labelled turns *)

Lemma label_free_drop s i : label_free s = true → Re.label_colon (drop i s) = false.
Proof.
  revert i. induction s as [|c s IH]; intros i.
  - by rewrite drop_nil.
  - cbn [label_free]. intros [Hc Hs]%andb_true_iff. destruct i as [|i]; simpl.
    + by apply negb_true_iff.
    + by apply IH.
Qed.

Lemma render_initial (k : chunk) :
  wf_chunk k → ∃ c v, render k = c :: v ∧ initial c = true ∧
                      Re.label_colon (render k) = true.
Proof.
  destruct k as [[lab ws] body]. intros (Hlab & _ & _). simpl.
  destruct (is_label_initial _ Hlab) as (c & lab' & -> & Hc).
  exists c, (lab' ++ 0x3A :: ws ++ body). repeat split; [done|].
  by apply (label_colon_is_label (c :: lab')).
Qed.

Lemma findall_prefix pre rest :
  label_free pre = true →
  (rest = [] ∨ ∃ c v, rest = c :: v ∧ initial c = true) →
  Re.findall (pre ++ rest) = Re.findall rest.
Proof.
  intros Hpre Hrest. induction pre as [|a pre IH]; [done|].
  cbn [label_free] in Hpre. apply andb_true_iff in Hpre as [Ha Hpre].
  apply negb_true_iff in Ha.
  rewrite <-app_comm_cons, findall_skip; [by apply IH|].
  apply match_here_none. rewrite app_comm_cons.
  destruct Hrest as [->|(c & v & -> & Hc)]; [by rewrite app_nil_r|].
  destruct (Re.label_colon ((a :: pre) ++ c :: v)) eqn:H; [|done].
  apply label_colon_no_straddle in H; [congruence | done | done].
Qed.

Lemma forallb_isspace ws :
  forallb isspace ws = true → Forall (λ c, isspace c = true) ws.
Proof.
  induction ws as [|c ws IH]; simpl; [done|].
  intros [? ?]%andb_true_iff. constructor; auto.
Qed.

Lemma at_end_cases r : Re.at_end r = true → r = [] ∨ r = [0x0A].
Proof.
  destruct r as [|x [|y r]]; simpl; [by left | | done].
  intros ->%N.eqb_eq. by right.
Qed.

(** The match that starts at a labelled turn: its text is the turn's text,
    up to white space at the end, and the scan resumes at the next turn. *)
Lemma match_chunk lab ws c b rest :
  is_label lab → Forall (λ x, isspace x = true) ws →
  isspace c = false → label_free b = true →
  (rest = [] ∨
   ∃ c' v, rest = c' :: v ∧ initial c' = true ∧ Re.label_colon rest = true) →
  ∃ g2 r, Re.match_here (lab ++ 0x3A :: ws ++ (c :: b) ++ rest) = Some (lab, g2, r) ∧
          strip g2 = strip (c :: b) ∧ Re.findall r = Re.findall rest.
Proof.
  intros Hlab Hws Hc Hb Hrest.
  assert (Hstart : ∀ x t', (c :: b) ++ rest = x :: t' → isspace x = false)
    by (by intros x t' [= <- _]).
  destruct Hrest as [->|(c' & v & -> & Hc' & Hlc)].
  - destruct (lazy_dots_is_Some (c :: b)) as [[g2 r] Hlazy]; [done|].
    exists g2, r. rewrite app_nil_r in *.
    split; [by apply match_here_complete|].
    destruct (lazy_dots_sound _ _ _ Hlazy) as (Heq & Hg2 & Hr & _).
    destruct g2 as [|x g2]; [done|]. injection Heq as <- ->.
    assert (Hr' : r = [] ∨ r = [0x0A]).
    { apply at_end_cases. unfold Re.lookahead in Hr.
      pose proof (label_free_drop _ (length g2) Hb) as Hn.
      rewrite drop_app_length in Hn. by rewrite Hn in Hr. }
    assert (Hsp : Forall (λ x, isspace x = true) r)
      by (destruct Hr' as [->| ->]; by repeat constructor).
    split; [|by destruct Hr' as [->| ->]].
    rewrite app_comm_cons. symmetry. by apply strip_text.
  - exists (c :: b), (c' :: v).
    split; [|done]. apply match_here_complete; [done..|].
    apply lazy_dots_complete; [done | unfold Re.lookahead; by rewrite Hlc |].
    intros [|i] Hi; [lia|]. cbn [length] in Hi.
    rewrite <-app_comm_cons. cbn [drop].
    rewrite drop_app_le by lia.
    destruct (drop i b) as [|x u] eqn:Hu.
    { apply (f_equal length) in Hu. rewrite length_drop in Hu. simpl in Hu. lia. }
    unfold Re.lookahead. apply orb_false_iff. split.
    + destruct (Re.label_colon ((x :: u) ++ c' :: v)) eqn:H; [|done].
      apply label_colon_no_straddle in H; [|done..].
      rewrite <-Hu, label_free_drop in H; done.
    + simpl. by destruct u.
Qed.

Lemma findall_chunks (chunks : list chunk) :
  Forall wf_chunk chunks →
  omap turn_of_match (Re.findall (mjoin (render <$> chunks)))
  = turn_of_chunk <$> chunks.
Proof.
  induction 1 as [|[[lab ws] body] ks Hk Hks IH]; [done|].
  destruct Hk as (Hlab & Hws%forallb_isspace & Hbody).
  destruct body as [|c b]; [done|]. destruct Hbody as [Hc Hb].
  change (mjoin (render <$> (lab, ws, c :: b) :: ks))
    with ((lab ++ 0x3A :: ws ++ c :: b) ++ mjoin (render <$> ks)).
  change (turn_of_chunk <$> (lab, ws, c :: b) :: ks)
    with (turn_of_chunk (lab, ws, c :: b) :: (turn_of_chunk <$> ks)).
  rewrite <-app_assoc, <-app_comm_cons, <-app_assoc.
  destruct (match_chunk lab ws c b (mjoin (render <$> ks)) Hlab Hws Hc Hb)
    as (g2 & r & Hm & Hstrip & Hr).
  { destruct Hks as [|k ks Hk _]; [by left | right].
    destruct (render_initial k Hk) as (c' & v & Hrk & Hc' & Hlc).
    change (mjoin (render <$> k :: ks)) with (render k ++ mjoin (render <$> ks)).
    eexists _, _. split; [by rewrite Hrk, <-app_comm_cons|].
    split; [done | by apply label_colon_app]. }
  assert (Hcons : ∀ x l, omap turn_of_match (x :: l)
            = match turn_of_match x with
              | Some y => y :: omap turn_of_match l
              | None => omap turn_of_match l
              end) by done.
  rewrite (findall_match _ _ _ _ Hm), Hr, Hcons, IH.
  unfold turn_of_match. cbn [fst snd]. rewrite Hstrip.
  destruct (strip_text c b [] Hc) as [_ Hne]; [done|].
  by rewrite bool_decide_eq_true_2.
Qed.

(** ** A label directly after a label *)

Lemma match_here_minimal s g1 g2 rest i :
  Re.match_here s = Some (g1, g2, rest) → (0 < i < length g2)%nat →
  Re.label_colon (drop i g2 ++ rest) = false.
Proof.
  intros (ws & _ & _ & _ & Hlazy)%match_here_sound Hi.
  destruct (lazy_dots_sound _ _ _ Hlazy) as (_ & _ & _ & Hmin).
  specialize (Hmin i Hi). rewrite drop_app_le in Hmin by lia.
  unfold Re.lookahead in Hmin. by apply orb_false_iff in Hmin as [? _].
Qed.

Lemma match_text_label_free s g1 g2 rest i :
  Re.match_here s = Some (g1, g2, rest) → (0 < i)%nat →
  Re.label_colon (drop i (strip g2)) = false.
Proof.
  intros Hm Hi. destruct (strip_middle g2) as (a & b & Hg2).
  remember (strip g2) as t eqn:Ht. clear Ht.
  destruct (decide (i < length t)%nat) as [Hlt|Hge];
    [|by rewrite drop_ge by lia].
  destruct (Re.label_colon (drop i t)) eqn:H; [|done].
  assert (Hlen : (0 < length a + i < length g2)%nat)
    by (rewrite Hg2, !length_app; lia).
  pose proof (match_here_minimal s g1 g2 rest _ Hm Hlen) as Hf.
  rewrite Hg2, drop_app_add', drop_app_le, <-app_assoc in Hf by (done || lia).
  by rewrite (label_colon_app _ _ H) in Hf.
Qed.

(** * The claims about the parser *)

(** C1 (the code departs from the claim).  The labels are matched with
    [re.IGNORECASE], under which the long s (U+017F) matches the letter s of
    the pattern; [capitalize] leaves it in place, so the script "hoſt: hi"
    yields one turn whose speaker is neither "Host" nor "Guest".  And a
    label on a line of its own, directly followed by the next label, is not
    dropped as a turn with an empty text: it takes the next label and its
    line as its text. *)
Theorem parse_script_departures :
  parse_script ([0x68; 0x6F; 0x17F; 0x74] ++ U ": hi")
    = [([0x48; 0x6F; 0x17F; 0x74], U "hi")] ∧
  [0x48; 0x6F; 0x17F; 0x74] ≠ U "Host" ∧
  [0x48; 0x6F; 0x17F; 0x74] ≠ U "Guest" ∧
  parse_script (U ("Host:" +:+ lf +:+ "Guest: Hello"))
    = [(U "Host", U "Guest: Hello")].
Proof. split; [reflexivity|]. split; [discriminate|]. split; [discriminate|reflexivity]. Qed.

(** The example of the specification: three labelled lines. *)
Example parse_script_three_lines :
  parse_script (U ("Host: Hi" +:+ lf +:+ "Guest: Hello" +:+ lf +:+ "Host: Bye"))
  = [(U "Host", U "Hi"); (U "Guest", U "Hello"); (U "Host", U "Bye")].
Proof. reflexivity. Qed.

(** Every turn that is returned has a text that is not empty and is the
    trimmed text of a match. *)
Lemma parse_script_text speaker text script :
  (speaker, text) ∈ parse_script script →
  text ≠ [] ∧ ∃ g1 g2 t rest, Re.match_here t = Some (g1, g2, rest) ∧
                              speaker = capitalize g1 ∧ text = strip g2.
Proof.
  rewrite parse_script_omap. intros ([g1 g2] & Hin & Ht)%list_elem_of_omap.
  unfold turn_of_match in Ht. cbn [fst snd] in Ht.
  destruct (bool_decide_reflect (strip g2 ≠ [])) as [Hne|]; [|done].
  injection Ht as <- <-. split; [done|].
  destruct (findall_elem _ _ _ Hin) as (t & rest & Hm). by exists g1, g2, t, rest.
Qed.

Lemma lit_ignorecase_letter p c :
  0x61 ≤ p ≤ 0x7A → lit_ignorecase p c = true →
  c = p ∨ c = p - 32 ∨ (p = 0x73 ∧ c = 0x17F).
Proof.
  intros Hp. unfold lit_ignorecase, to_lower, ignorecase_fixes.
  replace ((0x41 <=? p) && (p <=? 0x5A)) with false
    by (symmetry; apply andb_false_iff; right; apply N.leb_gt; lia).
  destruct ((0x41 <=? c) && (c <=? 0x5A)) eqn:Hr.
  - apply andb_true_iff in Hr as [Hlo%N.leb_le Hhi%N.leb_le].
    destruct (N.eqb_spec p 0x73) as [->|_]; cbn [existsb];
      rewrite ?orb_false_r; intros Hm.
    + apply orb_true_iff in Hm as [Hm%N.eqb_eq|Hm%N.eqb_eq]; lia.
    + apply N.eqb_eq in Hm. lia.
  - destruct (N.eqb_spec p 0x73) as [->|_]; cbn [existsb];
      rewrite ?orb_false_r; intros Hm.
    + apply orb_true_iff in Hm as [Hm%N.eqb_eq|Hm%N.eqb_eq]; auto.
    + apply N.eqb_eq in Hm. auto.
Qed.

(** The speakers that [parse_script] can return. *)
Lemma capitalize_label lab :
  is_label lab →
  capitalize lab = U "Host" ∨ capitalize lab = U "Guest" ∨
  capitalize lab = [0x48; 0x6F; 0x17F; 0x74] ∨
  capitalize lab = [0x47; 0x75; 0x65; 0x17F; 0x74].
Proof.
  intros [H|H].
  - assert (HF : (lab, []) ∈ Re.word (U "Host") lab) by (rewrite H; left).
    apply word_sound in HF as [_ HF]. rewrite U_Host in HF.
    repeat match goal with
           | H : Forall2 _ (_ :: _) _ |- _ =>
               apply Forall2_cons_inv_l in H as (? & ? & ? & H & ->)
           | H : Forall2 _ [] _ |- _ => apply Forall2_nil_inv_l in H as ->
           end.
    repeat match goal with
           | H : lit_ignorecase 0x48 _ = true |- _ => apply lit_ignorecase_h in H
           | H : lit_ignorecase _ _ = true |- _ =>
               apply lit_ignorecase_letter in H; [|lia]
           end.
    intuition (try discriminate; subst; vm_compute; auto).
  - assert (HF : (lab, []) ∈ Re.word (U "Guest") lab) by (rewrite H; left).
    apply word_sound in HF as [_ HF]. rewrite U_Guest in HF.
    repeat match goal with
           | H : Forall2 _ (_ :: _) _ |- _ =>
               apply Forall2_cons_inv_l in H as (? & ? & ? & H & ->)
           | H : Forall2 _ [] _ |- _ => apply Forall2_nil_inv_l in H as ->
           end.
    repeat match goal with
           | H : lit_ignorecase 0x47 _ = true |- _ => apply lit_ignorecase_g in H
           | H : lit_ignorecase _ _ = true |- _ =>
               apply lit_ignorecase_letter in H; [|lia]
           end.
    intuition (try discriminate; subst; vm_compute; auto).
Qed.

(** Every speaker that is returned is "Host", "Guest", or one of the two
    spellings with a long s in place of the s. *)
Lemma parse_script_speaker speaker text script :
  (speaker, text) ∈ parse_script script →
  speaker = U "Host" ∨ speaker = U "Guest" ∨
  speaker = [0x48; 0x6F; 0x17F; 0x74] ∨ speaker = [0x47; 0x75; 0x65; 0x17F; 0x74].
Proof.
  intros (_ & g1 & g2 & t & rest & Hm & -> & _)%parse_script_text.
  apply match_here_sound in Hm as (ws & _ & Hlab & _). by apply capitalize_label.
Qed.

(** A script that is some label-free text followed by labelled turns,
    each running up to the next label or to the end of the script, parses to
    exactly those turns: the text before the first label is discarded, and
    everything after the last label, however many unlabelled lines it spans,
    is the text of the last turn. *)
Theorem parse_script_labelled_turns (pre : str) (chunks : list chunk) :
  label_free pre = true → Forall wf_chunk chunks →
  parse_script (pre ++ mjoin (render <$> chunks)) = turn_of_chunk <$> chunks.
Proof.
  intros Hpre Hks. rewrite parse_script_omap, findall_prefix; [|done|].
  - by apply findall_chunks.
  - destruct Hks as [|k ks Hk _]; [by left | right].
    destruct (render_initial k Hk) as (c & v & Hrk & Hc & _).
    change (mjoin (render <$> k :: ks)) with (render k ++ mjoin (render <$> ks)).
    eexists _, _. split; [by rewrite Hrk, <-app_comm_cons | done].
Qed.

Lemma parse_script_labelled_turns_witness :
  parse_script (U "intro HOST: one two gUEST:three four")
  = [(U "Host", U "one two"); (U "Guest", U "three four")].
Proof.
  apply (parse_script_labelled_turns (U "intro ")
           [(U "HOST", U " ", U "one two "); (U "gUEST", [], U "three four")]).
  - reflexivity.
  - constructor; [|constructor; [|constructor]].
    + split; [left; reflexivity | split; [reflexivity | split; reflexivity]].
    + split; [right; reflexivity | split; [reflexivity | split; reflexivity]].
Defined.

(** C10 (the code departs from the claim).  A label that directly follows
    another label and its colon, with at most white space between them,
    begins no turn: it is taken as the beginning of the earlier turn's
    text, which then contains a label followed by a colon. *)
Theorem parse_script_label_after_label :
  parse_script (U "Host:Guest: hi") = [(U "Host", U "Guest: hi")] ∧
  parse_script (U ("Host:" +:+ lf +:+ "Guest: Hello")) = [(U "Host", U "Guest: Hello")] ∧
  Re.label_colon (U "Guest: hi") = true ∧
  Re.label_colon (U "Guest: Hello") = true.
Proof. repeat split; reflexivity. Qed.

(** What does hold of every returned turn: no label followed by a colon
    begins in its text after the first character. *)
Lemma parse_script_text_no_later_label script speaker text i :
  (speaker, text) ∈ parse_script script → (0 < i)%nat →
  Re.label_colon (drop i text) = false.
Proof.
  intros (_ & g1 & g2 & t & rest & Hm & _ & ->)%parse_script_text Hi.
  by eapply match_text_label_free.
Qed.

(** C2 as stated fails: on a script without labelled turns [parse_script]
    reports nothing, it returns the empty list. *)
Lemma parse_script_no_turns :
  parse_script (U "") = [] ∧ parse_script (U "no labels here") = [].
Proof. split; reflexivity. Qed.

(** * Properties of the pipeline *)

Section PipelineFacts.
Context {E : Env}.
Implicit Types (w : World E) (F : Faults) (d i : nat).

Lemma bind_ok {A B} (m : M E A) (f : A → M E B) w a w' :
  m w = (Ok a, w') → (m ≫= f) w = f a w'.
Proof. intros H. unfold mbind, M_bind. by rewrite H. Qed.

Lemma bind_raise {A B} (m : M E A) (f : A → M E B) w e w' :
  m w = (Raise e, w') → (m ≫= f) w = (Raise e, w').
Proof. intros H. unfold mbind, M_bind. by rewrite H. Qed.

Lemma same_outside_refl d w : same_outside d w w.
Proof. by repeat split. Qed.

Lemma same_outside_trans d w1 w2 w3 :
  same_outside d w1 w2 → same_outside d w2 w3 → same_outside d w1 w3.
Proof.
  intros (H1 & H2 & H3) (H1' & H2' & H3'). repeat split; [congruence | auto | congruence].
Qed.

(** ** One turn *)

Lemma _generate_single_audio_frame text voice d f w :
  same_outside d w (_generate_single_audio text voice (d, f) w).2 ∧
  calls (_generate_single_audio text voice (d, f) w).2
  = calls w ++ [{| call_text := text; call_voice := voice;
                   call_rate := "+20%"; call_path := (d, f) |}].
Proof.
  unfold _generate_single_audio. cbn [fst snd].
  destruct (dirs w !! d) as [fs|] eqn:Hd; [|by repeat split].
  destruct (communicate_save E _) as [[b|] [msg|]]; cbn [written raised snd];
    (split; [|done]); repeat split; cbn [dirs files];
    rewrite ?delete_insert_eq, ?lookup_insert_eq; by eauto.
Qed.

Lemma from_mp3_world path w : (from_mp3 path w).2 = w.
Proof.
  unfold from_mp3. destruct (_ ≫= _) as [b|]; [|done]. by destruct (decode_mp3 E b).
Qed.

Lemma synthesize_turn_frame d i turn acc w r w' :
  synthesize_turn d i turn acc w = (r, w') →
  same_outside d w w' ∧ calls w' = calls w ++ [call_of d i turn].
Proof.
  destruct turn as [speaker text]. unfold synthesize_turn, call_of, segment_file.
  pose proof (_generate_single_audio_frame text (resolve_voice speaker) d
                ("segment_" +:+ pretty i +:+ ".mp3") w) as [Hf Hc].
  unfold mbind at 1, M_bind at 1.
  destruct (_generate_single_audio _ _ _ w) as [[[]|e] w1]; cbn [snd] in *;
    [|by intros [= <- <-]].
  unfold except_as, mbind, M_bind, mret, M_ret, raise.
  pose proof (from_mp3_world (d, "segment_" +:+ pretty i +:+ ".mp3") w1) as Hw.
  destruct (from_mp3 _ w1) as [[seg|e] w2]; cbn [snd] in *; subst w2;
    by intros [= <- <-].
Qed.

Lemma synthesize_turn_ok d i turn acc w seg :
  is_Some (dirs w !! d) → synthesized E (call_of d i turn) seg →
  (synthesize_turn d i turn acc w).1 = Ok (acc ++ [seg; seg_silent E 500]).
Proof.
  intros [fs Hd] (b & Hsave & Hdec). destruct turn as [speaker text].
  unfold synthesize_turn, call_of, segment_file in *. cbn [fst snd] in *.
  unfold mbind at 1, M_bind at 1, _generate_single_audio. cbn [fst snd].
  rewrite Hd, Hsave. cbn [written raised].
  unfold except_as, mbind, M_bind, from_mp3. cbn [dirs fst snd].
  rewrite lookup_insert_eq. cbn [mbind option_bind].
  rewrite lookup_insert_eq, Hdec. done.
Qed.

Lemma synthesize_turn_decode_error d i turn acc w b msg :
  is_Some (dirs w !! d) →
  communicate_save E (call_of d i turn) = {| written := Some b; raised := None |} →
  decode_mp3 E b = inr msg →
  (synthesize_turn d i turn acc w).1 = Raise (RuntimeError (remediation +:+ msg)).
Proof.
  intros [fs Hd] Hsave Hdec. destruct turn as [speaker text].
  unfold synthesize_turn, call_of, segment_file in *. cbn [fst snd] in *.
  unfold mbind at 1, M_bind at 1, _generate_single_audio. cbn [fst snd].
  rewrite Hd, Hsave. cbn [written raised].
  unfold except_as, mbind, M_bind, from_mp3. cbn [dirs fst snd].
  rewrite lookup_insert_eq. cbn [mbind option_bind].
  rewrite lookup_insert_eq, Hdec. done.
Qed.

(** ** The loop *)

Lemma synthesize_turns_frame turns d i acc w r w' :
  synthesize_turns d i turns acc w = (r, w') →
  same_outside d w w' ∧
  ∃ n, calls w' = calls w ++ take n (calls_from d i turns) ∧
       (∀ a, r = Ok a → n = length turns).
Proof.
  revert i acc w. induction turns as [|turn turns IH]; intros i acc w; cbn [synthesize_turns].
  - intros [= <- <-]. split; [apply same_outside_refl|]. exists 0%nat.
    by rewrite app_nil_r.
  - destruct (synthesize_turn d i turn acc w) as [[a|e] w1] eqn:H1;
      destruct (synthesize_turn_frame _ _ _ _ _ _ _ H1) as [Hf Hc].
    + rewrite (bind_ok _ _ _ _ _ H1). intros H.
      destruct (IH _ _ _ H) as (Hf' & n & Hc' & Hn).
      split; [by eapply same_outside_trans|]. exists (S n).
      cbn [calls_from take length]. rewrite Hc', Hc, <-app_assoc.
      split; [done|]. intros a' Ha. f_equal. by eapply Hn.
    + rewrite (bind_raise _ _ _ _ _ H1). intros [= <- <-].
      split; [done|]. exists 1%nat. cbn [calls_from take].
      by rewrite take_0.
Qed.

Lemma synthesize_turn_length d i turn acc w a w' :
  synthesize_turn d i turn acc w = (Ok a, w') → length a = (length acc + 2)%nat.
Proof.
  destruct turn as [speaker text]. unfold synthesize_turn.
  unfold mbind at 1, M_bind at 1.
  destruct (_generate_single_audio _ _ _ w) as [[[]|e] w1]; [|done].
  unfold except_as, mbind, M_bind, mret, M_ret, raise.
  destruct (from_mp3 _ w1) as [[seg|e] w2]; [|done].
  intros [= <- <-]. rewrite !length_app. simpl. lia.
Qed.

Lemma synthesize_turns_length turns d i acc w :
  ∀ a w', synthesize_turns d i turns acc w = (Ok a, w') →
          length a = (length acc + 2 * length turns)%nat.
Proof.
  revert i acc w. induction turns as [|turn turns IH]; intros i acc w a w';
    cbn [synthesize_turns].
  - intros [= <- <-]. simpl. lia.
  - destruct (synthesize_turn d i turn acc w) as [[a1|e] w1] eqn:H1.
    + rewrite (bind_ok _ _ _ _ _ H1). intros H%IH.
      apply synthesize_turn_length in H1. cbn [length]. lia.
    + by rewrite (bind_raise _ _ _ _ _ H1).
Qed.

Lemma synthesize_turns_ok turns segs d i acc w :
  is_Some (dirs w !! d) →
  Forall2 (synthesized E) (calls_from d i turns) segs →
  (synthesize_turns d i turns acc w).1 = Ok (acc ++ with_pauses E segs).
Proof.
  revert segs i acc w.
  induction turns as [|turn turns IH]; intros segs i acc w Hd; cbn [calls_from synthesize_turns].
  - intros ->%Forall2_nil_inv_l. unfold with_pauses. by rewrite app_nil_r.
  - intros (seg & segs' & Hseg & Hsegs & ->)%Forall2_cons_inv_l.
    pose proof (synthesize_turn_ok d i turn acc w seg Hd Hseg) as Hok.
    destruct (synthesize_turn d i turn acc w) as [r w1] eqn:H1. cbn [fst] in Hok.
    subst r. destruct (synthesize_turn_frame _ _ _ _ _ _ _ H1) as [(_ & Hd1 & _) _].
    rewrite (bind_ok _ _ _ _ _ H1), (IH segs' _ _ _ (Hd1 Hd) Hsegs).
    unfold with_pauses. by rewrite bind_cons, <-app_assoc.
Qed.

Lemma synthesize_turns_decode_error before turn after segs d i acc w b msg :
  is_Some (dirs w !! d) →
  Forall2 (synthesized E) (calls_from d i before) segs →
  communicate_save E (call_of d (i + length before) turn)
    = {| written := Some b; raised := None |} →
  decode_mp3 E b = inr msg →
  ∃ w', synthesize_turns d i (before ++ turn :: after) acc w
        = (Raise (RuntimeError (remediation +:+ msg)), w') ∧
        same_outside d w w' ∧
        calls w' = calls w ++ calls_from d i (before ++ [turn]).
Proof.
  revert segs i acc w.
  induction before as [|t before IH]; intros segs i acc w Hd Hsegs Hsave Hdec;
    cbn [app length calls_from synthesize_turns] in *.
  - rewrite Nat.add_0_r in Hsave.
    pose proof (synthesize_turn_decode_error d i turn acc w b msg Hd Hsave Hdec) as Herr.
    destruct (synthesize_turn d i turn acc w) as [r w1] eqn:H1. cbn [fst] in Herr.
    subst r. destruct (synthesize_turn_frame _ _ _ _ _ _ _ H1) as [Hf Hc].
    exists w1. by rewrite (bind_raise _ _ _ _ _ H1).
  - apply Forall2_cons_inv_l in Hsegs as (seg & segs' & Hseg & Hsegs & ->).
    pose proof (synthesize_turn_ok d i t acc w seg Hd Hseg) as Hok.
    destruct (synthesize_turn d i t acc w) as [r w1] eqn:H1. cbn [fst] in Hok.
    subst r. destruct (synthesize_turn_frame _ _ _ _ _ _ _ H1) as [Hf Hc].
    rewrite (bind_ok _ _ _ _ _ H1).
    rewrite Nat.add_succ_r in Hsave.
    destruct (IH segs' (S i) (acc ++ [seg; seg_silent E 500]) w1)
      as (w' & Hrun & Hf' & Hc'); [by apply Hf | done..|].
    exists w'. split; [done|]. split; [by eapply same_outside_trans|].
    by rewrite Hc', Hc, <-app_assoc.
Qed.

(** ** Assembly *)

Lemma assemble_frame segs out w r w' :
  assemble segs out w = (r, w') → dirs w' = dirs w ∧ calls w' = calls w.
Proof.
  unfold assemble, mbind, M_bind, mret, M_ret, export.
  destruct segs as [|first rest]; [by intros [= <- <-]|].
  destruct (export_mp3 E _ out) as [|[a|] msg]; by intros [= <- <-].
Qed.

Lemma assemble_exported first rest out w :
  export_mp3 E (foldl (seg_add E) first rest) out = Exported →
  assemble (first :: rest) out w
  = (Ok out, {| dirs := dirs w;
                files := <[out := foldl (seg_add E) first rest]> (files w);
                calls := calls w |}).
Proof. intros Hx. unfold assemble, mbind, M_bind, mret, M_ret, export. by rewrite Hx. Qed.

(** ** The [try] block *)

Lemma try_block_frame d turns out w r w' :
  try_block d turns out w = (r, w') →
  delete d (dirs w') = delete d (dirs w) ∧
  (is_Some (dirs w !! d) → is_Some (dirs w' !! d)) ∧
  ∃ n, calls w' = calls w ++ take n (calls_from d 0 turns) ∧
       match r with Ok _ => n = length turns | Raise _ => True end.
Proof.
  unfold try_block.
  destruct (synthesize_turns d 0 turns [] w) as [[segs|e] w1] eqn:H1;
    destruct (synthesize_turns_frame _ _ _ _ _ _ _ H1) as ((Hdel & Hd & _) & n & Hc & Hn).
  - rewrite (bind_ok _ _ _ _ _ H1). intros [Hdirs Hcalls]%assemble_frame.
    rewrite Hdirs, Hcalls. repeat split; [done..|]. exists n. split; [done|].
    rewrite (Hn segs eq_refl). by destruct r.
  - rewrite (bind_raise _ _ _ _ _ H1). intros [= <- <-]. eauto.
Qed.

Lemma try_block_decode_error d before turn after segs out w b msg :
  is_Some (dirs w !! d) →
  Forall2 (synthesized E) (calls_from d 0 before) segs →
  communicate_save E (call_of d (length before) turn)
    = {| written := Some b; raised := None |} →
  decode_mp3 E b = inr msg →
  ∃ w', try_block d (before ++ turn :: after) out w
        = (Raise (RuntimeError (remediation +:+ msg)), w') ∧
        files w' = files w ∧
        calls w' = calls w ++ calls_from d 0 (before ++ [turn]).
Proof.
  intros Hd Hsegs Hsave Hdec.
  destruct (synthesize_turns_decode_error before turn after segs d 0 [] w b msg)
    as (w' & Hrun & (_ & _ & Hf) & Hc); [done..|].
  exists w'. unfold try_block. by rewrite (bind_raise _ _ _ _ _ Hrun).
Qed.

Lemma try_block_exported d turns segs first rest out w :
  is_Some (dirs w !! d) →
  Forall2 (synthesized E) (calls_from d 0 turns) segs →
  with_pauses E segs = first :: rest →
  export_mp3 E (foldl (seg_add E) first rest) out = Exported →
  ∃ w', try_block d turns out w = (Ok out, w') ∧
        files w' = <[out := foldl (seg_add E) first rest]> (files w).
Proof.
  intros Hd Hsegs Hwp Hx.
  pose proof (synthesize_turns_ok turns segs d 0 [] w Hd Hsegs) as Hok.
  destruct (synthesize_turns d 0 turns [] w) as [r w1] eqn:H1. cbn [fst] in Hok.
  subst r. destruct (synthesize_turns_frame _ _ _ _ _ _ _ H1) as ((_ & _ & Hf) & _).
  eexists. unfold try_block. rewrite (bind_ok _ _ _ _ _ H1), app_nil_l, Hwp.
  rewrite (assemble_exported _ _ _ _ Hx). split; [done|]. cbn [files]. by rewrite Hf.
Qed.

(** ** The [finally] block *)

Lemma lookup_foldl_remove {V} (fails : string → bool) (names : list string)
    (m : gmap string V) k :
  foldl (λ m f, if fails f then m else delete f m) m names !! k
  = if decide (k ∈ names ∧ fails k = false) then None else m !! k.
Proof.
  revert m. induction names as [|f names IH]; intros m; cbn [foldl].
  - rewrite decide_False; [done|]. by intros [?%elem_of_nil _].
  - rewrite IH. destruct (decide (k ∈ names ∧ fails k = false)) as [[Hin Hk]|Hnin].
    + rewrite decide_True; [done|]. split; [by right | done].
    + destruct (decide (k = f ∧ fails k = false)) as [[-> Hk]|Hne].
      * rewrite Hk, decide_True by (split; [left | done]). apply lookup_delete_eq.
      * rewrite decide_False.
        2:{ intros [[->|?]%elem_of_cons ?]; [by apply Hne | by apply Hnin]. }
        destruct (fails f) eqn:Hf; [done|]. apply lookup_delete_ne.
        intros <-. by apply Hne.
Qed.

Lemma foldl_remove_keys {V} (fails : string → bool) (m : gmap string V) :
  let m' := foldl (λ m f, if fails f then m else delete f m) m (map_to_list m).*1 in
  map_Forall (λ f _, fails f = true) m' ∧
  ((∀ f, fails f = false) → m' = ∅).
Proof.
  assert (Hkeys : ∀ k x, m !! k = Some x → k ∈ (map_to_list m).*1).
  { intros k x Hk. apply list_elem_of_fmap. exists (k, x).
    split; [done | by apply elem_of_map_to_list]. }
  split.
  - intros k x. rewrite lookup_foldl_remove.
    destruct (decide _) as [|Hn]; [done|]. intros Hk.
    destruct (fails k) eqn:Hf; [done|]. exfalso. apply Hn. eauto.
  - intros Hok. apply map_eq. intros k.
    rewrite lookup_foldl_remove, lookup_empty.
    destruct (decide _) as [|Hn]; [done|].
    destruct (m !! k) as [x|] eqn:Hk; [|done]. exfalso. apply Hn. eauto.
Qed.

Lemma remove_spec F d f w fs :
  dirs w !! d = Some fs →
  dirs (remove F d f w).2 !! d
    = Some (if remove_fails F d f then fs else delete f fs) ∧
  delete d (dirs (remove F d f w).2) = delete d (dirs w) ∧
  files (remove F d f w).2 = files w ∧
  calls (remove F d f w).2 = calls w.
Proof.
  intros Hd. unfold remove. rewrite Hd.
  destruct (remove_fails F d f); [done|].
  destruct (fs !! f) as [b|] eqn:Hf; cbn [snd set_dirs dirs files calls].
  - by rewrite lookup_insert_eq, delete_insert_eq.
  - by rewrite delete_id.
Qed.

Lemma remove_all_spec F d names w fs :
  dirs w !! d = Some fs →
  ∃ w',
    foldr (λ f k, _ ← except_pass (remove F d f); k) (mret ()) names w = (Ok (), w') ∧
    dirs w' !! d
      = Some (foldl (λ m f, if remove_fails F d f then m else delete f m) fs names) ∧
    delete d (dirs w') = delete d (dirs w) ∧
    files w' = files w ∧ calls w' = calls w.
Proof.
  revert w fs. induction names as [|f names IH]; intros w fs Hd; cbn [foldr foldl].
  - by exists w.
  - destruct (remove_spec F d f w fs Hd) as (Hd1 & Hdel1 & Hf1 & Hc1).
    destruct (IH _ _ Hd1) as (w' & Hrun & Hd' & Hdel' & Hf' & Hc').
    exists w'. rewrite (bind_ok _ _ w () (remove F d f w).2) by done.
    repeat split; [done | done | congruence..].
Qed.

(** The [finally] block raises nothing and touches only the directory.
    Every file that is left in it is one whose removal failed, and the
    directory itself is left only if a file is left or its own removal
    failed. *)
Lemma cleanup_spec F d w fs :
  dirs w !! d = Some fs →
  ∃ w', cleanup F d w = (Ok (), w') ∧
        files w' = files w ∧ calls w' = calls w ∧
        delete d (dirs w') = delete d (dirs w) ∧
        match dirs w' !! d with
        | None => True
        | Some fs' => map_Forall (λ f _, remove_fails F d f = true) fs' ∧
                      (fs' ≠ ∅ ∨ rmdir_fails F d = true)
        end.
Proof.
  intros Hd. unfold cleanup.
  rewrite (bind_ok _ _ w (map_to_list fs).*1 w) by (unfold listdir; by rewrite Hd).
  destruct (remove_all_spec F d (map_to_list fs).*1 w fs Hd)
    as (w1 & Hrun & Hd1 & Hdel1 & Hf1 & Hc1).
  destruct (foldl_remove_keys (remove_fails F d) fs) as [Hleft _].
  cbv zeta in Hleft.
  set (fs1 := foldl _ fs _) in *.
  rewrite (bind_ok _ _ _ _ _ Hrun). unfold except_pass, rmdir. rewrite Hd1.
  exists ((if rmdir_fails F d
           then (Raise (OSError "Operation not permitted"), w1)
           else if bool_decide (fs1 = ∅) then (Ok (), set_dirs (delete d) w1)
                else (Raise (OSError "Directory not empty"), w1)).2).
  split; [done|].
  destruct (rmdir_fails F d) eqn:Hfault; cbn [snd].
  { rewrite Hd1. repeat split; [done..|]. by right. }
  destruct (bool_decide_reflect (fs1 = ∅)) as [Hfs1|Hne];
    cbn [snd set_dirs dirs files calls].
  - rewrite lookup_delete_eq. repeat split; [done | done |].
    by rewrite delete_delete_eq.
  - rewrite Hd1. repeat split; [done..|]. by left.
Qed.

(** ** The whole run *)

Lemma generate_podcast_audio_nil F script out w :
  parse_script script = [] →
  generate_podcast_audio F script out w = (Raise (ValueError unparsable), w).
Proof.
  intros H. unfold generate_podcast_audio. by rewrite bool_decide_eq_true_2.
Qed.

Lemma generate_podcast_audio_run F script out w rb wb :
  parse_script script ≠ [] →
  try_block (fresh (dom (dirs w))) (parse_script script) out
    (set_dirs <[fresh (dom (dirs w)) := ∅]> w) = (rb, wb) →
  ∃ w', generate_podcast_audio F script out w = (rb, w') ∧
        files w' = files wb ∧ calls w' = calls wb ∧
        delete (fresh (dom (dirs w))) (dirs w') = dirs w ∧
        match dirs w' !! fresh (dom (dirs w)) with
        | None => True
        | Some fs' =>
            map_Forall (λ f _, remove_fails F (fresh (dom (dirs w))) f = true) fs' ∧
            (fs' ≠ ∅ ∨ rmdir_fails F (fresh (dom (dirs w))) = true)
        end.
Proof.
  intros Hne Hbody. unfold generate_podcast_audio.
  rewrite bool_decide_eq_false_2 by done.
  rewrite (bind_ok _ _ w (fresh (dom (dirs w)))
             (set_dirs <[fresh (dom (dirs w)) := ∅]> w)) by done.
  set (d := fresh (dom (dirs w))) in *.
  destruct (try_block_frame _ _ _ _ _ _ Hbody) as (Hdel & Hd & _).
  destruct Hd as [fs Hfs]; [cbn [set_dirs dirs]; by rewrite lookup_insert_eq|].
  destruct (cleanup_spec F d wb fs Hfs) as (w' & Hclean & Hf & Hc & Hdel' & Hleft).
  exists w'. unfold finally. rewrite Hbody, Hclean.
  repeat split; [done.. | | done]. rewrite Hdel', Hdel.
  cbn [set_dirs dirs]. apply delete_insert_id, not_elem_of_dom, is_fresh.
Qed.

Lemma generate_podcast_audio_clean script out w :
  dirs (generate_podcast_audio no_faults script out w).2 = dirs w.
Proof.
  destruct (decide (parse_script script = [])) as [Hnil|Hne].
  { by rewrite generate_podcast_audio_nil. }
  destruct (try_block (fresh (dom (dirs w))) (parse_script script) out
              (set_dirs <[fresh (dom (dirs w)) := ∅]> w)) as [rb wb] eqn:Hbody.
  destruct (generate_podcast_audio_run no_faults script out w rb wb Hne Hbody)
    as (w' & -> & _ & _ & Hdel & Hleft). cbn [snd].
  destruct (dirs w' !! fresh (dom (dirs w))) as [fs'|] eqn:Hd'.
  - exfalso. destruct Hleft as [Hall [Hne'|?]]; [|done]. apply Hne'.
    apply map_eq. intros k. rewrite lookup_empty.
    destruct (fs' !! k) as [x|] eqn:Hk; [|done]. by apply Hall in Hk.
  - by rewrite <-Hdel, delete_id.
Qed.

End PipelineFacts.

(** * The claims about the pipeline *)

(** C2, amended. On a script without labelled turns [parse_script] returns
    the empty list, and it is [generate_podcast_audio] that raises the
    error, a [ValueError], before it creates the temporary directory or
    calls the speech service: the world is left as it was. *)
Theorem generate_podcast_audio_no_turns {E : Env} (F : Faults) script out (w : World E) :
  parse_script script = [] →
  ∃ msg, generate_podcast_audio F script out w = (Raise (ValueError msg), w).
Proof. intros H. exists unparsable. by apply generate_podcast_audio_nil. Qed.

Lemma generate_podcast_audio_no_turns_witness :
  ∃ msg, generate_podcast_audio no_faults (U "no labels here") "podcast.mp3"
           (Demo.empty_world Demo.env)
         = (Raise (ValueError msg), Demo.empty_world Demo.env).
Proof.
  apply (generate_podcast_audio_no_turns no_faults (U "no labels here")).
  reflexivity.
Defined.

(** C9 as stated fails: a label that is neither "Host" nor "Guest" is
    resolved to a voice. *)
Lemma resolve_voice_unknown_label :
  resolve_voice (U "Narrator") = "ko-KR-SunHiNeural".
Proof. reflexivity. Qed.

(** C9, amended. Every label other than "Host" is resolved to the Guest
    voice; no error is raised. *)
Theorem resolve_voice_not_host speaker :
  speaker ≠ U "Host" → resolve_voice speaker = GUEST_VOICE.
Proof. intros H. unfold resolve_voice. by rewrite bool_decide_eq_false_2. Qed.

Lemma resolve_voice_not_host_witness :
  resolve_voice [0x48; 0x6F; 0x17F; 0x74] = GUEST_VOICE.
Proof. apply resolve_voice_not_host. discriminate. Defined.

(** C6 as stated fails: given no segments, the assembling step raises
    nothing. *)
Lemma assemble_nothing :
  assemble (E := Demo.env) [] "podcast.mp3" (Demo.empty_world Demo.env)
  = (Ok "podcast.mp3", Demo.empty_world Demo.env).
Proof. reflexivity. Qed.

(** C6, amended. Given an empty sequence of segments the assembling step
    writes no artifact, raises no error and returns the destination path.
    The loop never hands it such a sequence: when the loop completes, it has
    added two segments for every turn. *)
Theorem assemble_empty {E : Env} :
  (∀ out (w : World E), assemble [] out w = (Ok out, w)) ∧
  (∀ d i turns acc (w : World E),
     match synthesize_turns d i turns acc w with
     | (Ok audio_segments, _) =>
         length audio_segments = (length acc + 2 * length turns)%nat
     | (Raise _, _) => True
     end).
Proof.
  split; [done|]. intros d i turns acc w.
  pose proof (synthesize_turns_length turns d i acc w) as H.
  destruct (synthesize_turns d i turns acc w) as [[segs|e] w']; [|done].
  by apply (H segs w').
Qed.

(** C4. Whatever the script and whatever the speech service, the decoder
    and the encoder do, the run leaves the other temporary directories as
    they were, and after it the directory it created either is gone, or
    holds only files whose own removal failed and is kept because such a
    file is left or because its own removal failed; with removals that
    succeed it is gone with everything in it.  Failing removals are
    swallowed: the outcome of the run, the files it leaves outside the
    temporary directory and the calls it made are those of the run in which
    every removal succeeds. *)
Theorem temporary_directory_removed {E : Env} (F : Faults) script out (w : World E) :
  let d := fresh (dom (dirs w)) in
  let run := generate_podcast_audio F script out w in
  let clean := generate_podcast_audio no_faults script out w in
  dirs w !! d = None ∧
  delete d (dirs run.2) = dirs w ∧
  match dirs run.2 !! d with
  | None => True
  | Some remaining =>
      map_Forall (λ f _, remove_fails F d f = true) remaining ∧
      (remaining ≠ ∅ ∨ rmdir_fails F d = true)
  end ∧
  dirs clean.2 = dirs w ∧
  run.1 = clean.1 ∧ files run.2 = files clean.2 ∧ calls run.2 = calls clean.2.
Proof.
  intros d run clean. subst run clean.
  assert (Hfresh : dirs w !! d = None) by apply not_elem_of_dom, is_fresh.
  split; [done|]. rewrite generate_podcast_audio_clean.
  destruct (decide (parse_script script = [])) as [Hnil|Hne].
  - rewrite !generate_podcast_audio_nil by done. cbn [fst snd].
    by rewrite Hfresh, delete_id.
  - destruct (try_block d (parse_script script) out (set_dirs <[d := ∅]> w))
      as [rb wb] eqn:Hbody.
    destruct (generate_podcast_audio_run F script out w rb wb Hne Hbody)
      as (w1 & -> & Hf1 & Hc1 & Hdel1 & Hleft1).
    destruct (generate_podcast_audio_run no_faults script out w rb wb Hne Hbody)
      as (w0 & -> & Hf0 & Hc0 & _).
    cbn [fst snd]. repeat split; [exact Hdel1 | exact Hleft1 | congruence..].
Qed.

(** With removals that all fail the run still succeeds, and leaves the
    directory with the two files behind. *)
Example stubborn_removals_are_swallowed :
  let run := generate_podcast_audio Demo.stubborn
               (U ("Host: Welcome!" +:+ lf +:+ "Guest: Thanks for having me."))
               "podcast.mp3" (Demo.empty_world Demo.env) in
  run.1 = Ok "podcast.mp3" ∧
  dom <$> dirs run.2 = {[ 0%nat := {[ "segment_0.mp3"; "segment_1.mp3" ]} ]}.
Proof. by vm_compute. Qed.

(** C5. When the turns before some turn are synthesized and decoded, and
    the file synthesized for that turn fails to decode, the run raises a
    [RuntimeError] whose message is the remediation text, naming the two
    commands that install ffmpeg, followed by the decoder's own message; the
    speech service was called for the turns up to the failing one and for no
    later turn, and the files outside the temporary directory, the
    destination among them, are as they were. *)
Theorem decode_failure_aborts {E : Env} (F : Faults) script out (w : World E)
    before turn after segs b msg :
  let d := fresh (dom (dirs w)) in
  let run := generate_podcast_audio F script out w in
  parse_script script = before ++ turn :: after →
  Forall2 (synthesized E) (calls_from d 0 before) segs →
  communicate_save E (call_of d (length before) turn)
    = {| written := Some b; raised := None |} →
  decode_mp3 E b = inr msg →
  run.1 = Raise (RuntimeError (remediation +:+ msg)) ∧
  calls run.2 = calls w ++ calls_from d 0 (before ++ [turn]) ∧
  files run.2 = files w ∧
  mentions remediation "brew install ffmpeg" = true ∧
  mentions remediation "sudo apt-get install ffmpeg" = true.
Proof.
  intros d run Hparse Hsegs Hsave Hdec. subst run.
  destruct (try_block_decode_error d before turn after segs out
              (set_dirs <[d := ∅]> w) b msg) as (wb & Hbody & Hf & Hc); [|done..|].
  { cbn [set_dirs dirs]. by rewrite lookup_insert_eq. }
  rewrite <-Hparse in Hbody.
  destruct (generate_podcast_audio_run F script out w _ wb
              ltac:(by rewrite Hparse; destruct before) Hbody)
    as (w' & -> & Hf' & Hc' & _).
  cbn [fst snd]. rewrite Hf', Hc', Hf, Hc. by repeat split.
Qed.

Lemma decode_failure_aborts_witness :
  let run := generate_podcast_audio Demo.stubborn
               (U ("Host: Welcome!" +:+ lf +:+ "Guest: Thanks." +:+ lf +:+ "Host: Bye"))
               "podcast.mp3" (Demo.empty_world Demo.env_corrupt_guest) in
  run.1 = Raise (RuntimeError (remediation +:+ "Decoding failed")) ∧
  calls run.2 = [call_of 0 0 (U "Host", U "Welcome!");
                 call_of 0 1 (U "Guest", U "Thanks.")] ∧
  files run.2 = ∅ ∧
  mentions remediation "brew install ffmpeg" = true ∧
  mentions remediation "sudo apt-get install ffmpeg" = true.
Proof.
  apply (decode_failure_aborts (E := Demo.env_corrupt_guest) Demo.stubborn
           (U ("Host: Welcome!" +:+ lf +:+ "Guest: Thanks." +:+ lf +:+ "Host: Bye"))
           "podcast.mp3" (Demo.empty_world Demo.env_corrupt_guest)
           [(U "Host", U "Welcome!")] (U "Guest", U "Thanks.") [(U "Host", U "Bye")]
           [Demo.speak (call_of 0 0 (U "Host", U "Welcome!"))]
           (Demo.speak (call_of 0 1 (U "Guest", U "Thanks."))) "Decoding failed").
  - reflexivity.
  - constructor; [|constructor]. eexists. split; reflexivity.
  - reflexivity.
  - reflexivity.
Defined.

(** C3. When every turn is synthesized and decoded and the export succeeds,
    the run writes to the destination the segments in the order of the
    turns, each followed by a silence of 500 milliseconds (the last one
    too), joined from left to right; with durations that add up under
    concatenation, the duration of what is written is the sum of the
    durations of the segments plus 500 milliseconds for each of them. *)
Theorem assembled_with_pauses {E : Env} (duration : AudioSegment E → N)
    (F : Faults) script out (w : World E) segs combined :
  (∀ a b, duration (seg_add E a b) = duration a + duration b) →
  (∀ n, duration (seg_silent E n) = n) →
  let d := fresh (dom (dirs w)) in
  let run := generate_podcast_audio F script out w in
  Forall2 (synthesized E) (calls_from d 0 (parse_script script)) segs →
  combine E (segs ≫= λ seg, [seg; seg_silent E 500]) = Some combined →
  export_mp3 E combined out = Exported →
  run.1 = Ok out ∧
  files run.2 = <[out := combined]> (files w) ∧
  duration combined
  = foldr (λ seg n, duration seg + n) 0 segs + 500 * N.of_nat (length segs).
Proof.
  intros Hadd Hsilent d run Hsegs Hcomb Hx. subst run.
  destruct (segs ≫= _) as [|first rest] eqn:Hwp; [done|].
  injection Hcomb as <-.
  destruct (try_block_exported d (parse_script script) segs first rest out
              (set_dirs <[d := ∅]> w)) as (wb & Hbody & Hf); [|done..|].
  { cbn [set_dirs dirs]. by rewrite lookup_insert_eq. }
  assert (Hturns : parse_script script ≠ []).
  { intros Hnil. rewrite Hnil in Hsegs. apply Forall2_nil_inv_l in Hsegs.
    by subst segs. }
  destruct (generate_podcast_audio_run F script out w _ wb Hturns Hbody)
    as (w' & -> & Hf' & _).
  cbn [fst snd]. rewrite Hf', Hf. repeat split.
  assert (Hfold : ∀ l a, duration (foldl (seg_add E) a l)
                         = duration a + foldr (λ seg n, duration seg + n) 0 l).
  { induction l as [|x l IH]; intros a; cbn [foldl foldr]; [lia|].
    rewrite IH, Hadd. lia. }
  rewrite Hfold.
  change (duration first + foldr (λ seg n, duration seg + n) 0 rest)
    with (foldr (λ seg n, duration seg + n) 0 (first :: rest)).
  rewrite <-Hwp. clear -Hsilent. induction segs as [|seg segs IH]; [done|].
  rewrite bind_cons. cbn [app foldr length]. rewrite IH, Hsilent. lia.
Qed.

Lemma assembled_with_pauses_witness :
  let run := generate_podcast_audio no_faults
               (U ("Host: Welcome!" +:+ lf +:+ "Guest: Thanks for having me."))
               "podcast.mp3" (Demo.empty_world Demo.env) in
  let host := Demo.speak (call_of 0 0 (U "Host", U "Welcome!")) in
  let guest := Demo.speak (call_of 0 1 (U "Guest", U "Thanks for having me.")) in
  let combined :=
    Demo.add (Demo.add (Demo.add host (Demo.silent 500)) guest) (Demo.silent 500) in
  run.1 = Ok "podcast.mp3" ∧
  files run.2 = <["podcast.mp3" := combined]> ∅ ∧
  Demo.ms combined = 3000.
Proof.
  apply (assembled_with_pauses (E := Demo.env) Demo.ms no_faults
           (U ("Host: Welcome!" +:+ lf +:+ "Guest: Thanks for having me."))
           "podcast.mp3" (Demo.empty_world Demo.env)
           [Demo.speak (call_of 0 0 (U "Host", U "Welcome!"));
            Demo.speak (call_of 0 1 (U "Guest", U "Thanks for having me."))]).
  - reflexivity.
  - reflexivity.
  - constructor; [|constructor; [|constructor]]; eexists; split; reflexivity.
  - reflexivity.
  - reflexivity.
Defined.

(** * Further properties of the parser *)

(** A script in which no label followed by a colon begins has no turns, and
    the pipeline rejects it with its [ValueError] without touching the
    world. *)
Theorem label_free_script_rejected {E : Env} (F : Faults) script out (w : World E) :
  label_free script = true →
  parse_script script = [] ∧
  generate_podcast_audio F script out w = (Raise (ValueError unparsable), w).
Proof.
  intros Hfree.
  assert (Hnil : parse_script script = []).
  { rewrite parse_script_omap, <-(app_nil_r script), findall_prefix; auto. }
  split; [done | by apply generate_podcast_audio_nil].
Qed.

Lemma label_free_script_rejected_witness :
  parse_script (U "The hostess greets her guests: welcome") = [] ∧
  generate_podcast_audio Demo.stubborn (U "The hostess greets her guests: welcome")
    "podcast.mp3" (Demo.empty_world Demo.env)
  = (Raise (ValueError unparsable), Demo.empty_world Demo.env).
Proof.
  apply (label_free_script_rejected Demo.stubborn
           (U "The hostess greets her guests: welcome")).
  reflexivity.
Defined.

Lemma slices_in_order_prepend ts pre s :
  slices_in_order ts s → slices_in_order ts (pre ++ s).
Proof.
  destruct ts as [|t ts]; [done|]. intros (a & s' & -> & H).
  exists (pre ++ a), s'. by rewrite <-app_assoc.
Qed.

Lemma findall_from_slices n s :
  slices_in_order ((omap turn_of_match (Re.findall_from n s)).*2) s.
Proof.
  revert s. induction n as [|n IH]; intros s; [done|]. cbn [Re.findall_from].
  destruct (Re.match_here s) as [[[g1 g2] rest]|] eqn:Hm.
  - apply match_here_sound in Hm as (ws & -> & _).
    assert (Hcons : ∀ x l, omap turn_of_match (x :: l)
              = match turn_of_match x with
                | Some y => y :: omap turn_of_match l
                | None => omap turn_of_match l
                end) by done.
    rewrite Hcons. unfold turn_of_match at 1. cbn [fst snd].
    destruct (bool_decide (strip g2 ≠ [])).
    + destruct (strip_middle g2) as (a & b & Hg2). cbn [fmap list_fmap snd].
      exists (g1 ++ 0x3A :: ws ++ a), (b ++ rest). split.
      * rewrite Hg2 at 1. by rewrite <-!app_assoc, <-app_comm_cons, <-!app_assoc.
      * apply slices_in_order_prepend, IH.
    + rewrite !app_comm_cons, !app_assoc. apply slices_in_order_prepend, IH.
  - destruct s as [|c s]; [done|]. apply (slices_in_order_prepend _ [c]), IH.
Qed.

(** The texts of the turns are taken from the script as they are: they
    occur in it one after the other, in the order of the turns, without
    overlap. *)
Theorem parse_script_texts_in_order script :
  slices_in_order (parse_script script).*2 script.
Proof. rewrite parse_script_omap. apply findall_from_slices. Qed.

Lemma lstrip_head s c t : lstrip s = c :: t → isspace c = false.
Proof.
  induction s as [|x s IH]; [done|]. simpl.
  destruct (isspace x) eqn:Hx; [done|]. by intros [= <- _].
Qed.

Lemma rstrip_last s c : last (rstrip s) = Some c → isspace c = false.
Proof.
  unfold rstrip. rewrite last_reverse.
  destruct (lstrip (reverse s)) as [|x t] eqn:H; [done|].
  intros [= <-]. by eapply lstrip_head.
Qed.

Lemma strip_head s c : head (strip s) = Some c → isspace c = false.
Proof.
  unfold strip. destruct (rstrip_prefix (lstrip s)) as (b & Hb & _).
  destruct (rstrip (lstrip s)) as [|x t]; [done|]. intros [= <-].
  by eapply lstrip_head.
Qed.

(** Every text that is returned begins and ends with a character that is
    not white space. *)
Theorem parse_script_text_trimmed script speaker text :
  (speaker, text) ∈ parse_script script →
  ∃ c c', head text = Some c ∧ last text = Some c' ∧
          isspace c = false ∧ isspace c' = false.
Proof.
  intros (Hne & g1 & g2 & t & rest & _ & _ & ->)%parse_script_text.
  destruct (strip g2) as [|c u] eqn:Hs; [done|].
  destruct (last (c :: u)) as [c'|] eqn:Hl.
  2:{ by apply last_None in Hl. }
  exists c, c'. split; [done|]. split; [done|]. split.
  - apply (strip_head g2). by rewrite Hs.
  - apply (rstrip_last (lstrip g2)). fold (strip g2). by rewrite Hs.
Qed.

Lemma parse_script_text_trimmed_witness :
  ∃ c c', head (U "one two") = Some c ∧ last (U "one two") = Some c' ∧
          isspace c = false ∧ isspace c' = false.
Proof.
  apply (parse_script_text_trimmed
           (U "intro HOST: one two gUEST:three four") (U "Host")).
  vm_compute. left.
Defined.

Lemma parse_script_speaker_witness :
  [0x48; 0x6F; 0x17F; 0x74] = U "Host" ∨ [0x48; 0x6F; 0x17F; 0x74] = U "Guest" ∨
  [0x48; 0x6F; 0x17F; 0x74] = [0x48; 0x6F; 0x17F; 0x74] ∨
  [0x48; 0x6F; 0x17F; 0x74] = [0x47; 0x75; 0x65; 0x17F; 0x74].
Proof.
  apply (parse_script_speaker _ (U "hi") ([0x68; 0x6F; 0x17F; 0x74] ++ U ": hi")).
  vm_compute. left.
Defined.

Lemma parse_script_text_no_later_label_witness :
  Re.label_colon (drop 1 (U "Guest: hi")) = false.
Proof.
  apply (parse_script_text_no_later_label (U "Host:Guest: hi") (U "Host")).
  - vm_compute. left.
  - lia.
Defined.

(** * Text before the first label and after the last *)





















(** * Further properties of the pipeline *)

Section PipelineMore.
Context {E : Env}.
Implicit Types (w : World E) (F : Faults) (d i : nat).

Lemma synthesize_turn_service_error d i turn acc w msg :
  is_Some (dirs w !! d) →
  raised (communicate_save E (call_of d i turn)) = Some msg →
  (synthesize_turn d i turn acc w).1 = Raise (ServiceError msg).
Proof.
  intros [fs Hd] Hsave. destruct turn as [speaker text].
  unfold synthesize_turn, call_of, segment_file in *. cbn [fst snd] in *.
  unfold mbind at 1, M_bind at 1, _generate_single_audio. cbn [fst snd].
  by rewrite Hd, Hsave.
Qed.

Lemma synthesize_turns_raise before turn after segs d i acc w e :
  is_Some (dirs w !! d) →
  Forall2 (synthesized E) (calls_from d i before) segs →
  (∀ acc' w', is_Some (dirs w' !! d) →
     (synthesize_turn d (i + length before) turn acc' w').1 = Raise e) →
  ∃ w', synthesize_turns d i (before ++ turn :: after) acc w = (Raise e, w') ∧
        same_outside d w w' ∧
        calls w' = calls w ++ calls_from d i (before ++ [turn]).
Proof.
  revert segs i acc w.
  induction before as [|t before IH]; intros segs i acc w Hd Hsegs Hturn;
    cbn [app length calls_from synthesize_turns] in *.
  - rewrite Nat.add_0_r in Hturn. specialize (Hturn acc w Hd).
    destruct (synthesize_turn d i turn acc w) as [r w1] eqn:H1. cbn [fst] in Hturn.
    subst r. destruct (synthesize_turn_frame _ _ _ _ _ _ _ H1) as [Hf Hc].
    exists w1. by rewrite (bind_raise _ _ _ _ _ H1).
  - apply Forall2_cons_inv_l in Hsegs as (seg & segs' & Hseg & Hsegs & ->).
    pose proof (synthesize_turn_ok d i t acc w seg Hd Hseg) as Hok.
    destruct (synthesize_turn d i t acc w) as [r w1] eqn:H1. cbn [fst] in Hok.
    subst r. destruct (synthesize_turn_frame _ _ _ _ _ _ _ H1) as [Hf Hc].
    rewrite (bind_ok _ _ _ _ _ H1).
    destruct (IH segs' (S i) (acc ++ [seg; seg_silent E 500]) w1)
      as (w' & Hrun & Hf' & Hc'); [by apply Hf | done | |].
    { intros acc' w' Hd'.
      replace (S i + length before)%nat with (i + S (length before))%nat by lia.
      by apply Hturn. }
    exists w'. split; [done|]. split; [by eapply same_outside_trans|].
    by rewrite Hc', Hc, <-app_assoc.
Qed.

End PipelineMore.

(** When the speech service raises an error for a turn, after the turns
    before it were synthesized and decoded, the run raises that error as it
    is, without the text about ffmpeg; the service was called for the turns
    up to that one and for no later turn, and the files outside the
    temporary directory are as they were. *)
Theorem service_failure_propagates {E : Env} (F : Faults) script out (w : World E)
    before turn after segs msg :
  let d := fresh (dom (dirs w)) in
  let run := generate_podcast_audio F script out w in
  parse_script script = before ++ turn :: after →
  Forall2 (synthesized E) (calls_from d 0 before) segs →
  raised (communicate_save E (call_of d (length before) turn)) = Some msg →
  run.1 = Raise (ServiceError msg) ∧
  calls run.2 = calls w ++ calls_from d 0 (before ++ [turn]) ∧
  files run.2 = files w.
Proof.
  intros d run Hparse Hsegs Hsave. subst run.
  destruct (synthesize_turns_raise before turn after segs d 0 []
              (set_dirs <[d := ∅]> w) (ServiceError msg))
    as (wb & Hloop & (_ & _ & Hf) & Hc); [|done|..].
  { cbn [set_dirs dirs]. by rewrite lookup_insert_eq. }
  { intros acc' w' Hd'. by apply synthesize_turn_service_error. }
  assert (Hbody : try_block d (parse_script script) out (set_dirs <[d := ∅]> w)
                  = (Raise (ServiceError msg), wb)).
  { unfold try_block. by rewrite Hparse, (bind_raise _ _ _ _ _ Hloop). }
  destruct (generate_podcast_audio_run F script out w _ wb
              ltac:(by rewrite Hparse; destruct before) Hbody)
    as (w' & -> & Hf' & Hc' & _).
  cbn [fst snd]. by rewrite Hf', Hc', Hf, Hc.
Qed.

Lemma string_length_app (s t : string) :
  String.length (s +:+ t) = (String.length s + String.length t)%nat.
Proof. induction s as [|a s IH]; simpl; [done | by rewrite IH]. Qed.

Lemma string_app_inv_tail (s t x : string) : s +:+ x = t +:+ x → s = t.
Proof.
  revert t. induction s as [|a s IH]; intros [|b t] H; [done | | |].
  - apply (f_equal String.length) in H.
    rewrite !string_length_app in H. simpl in H. lia.
  - apply (f_equal String.length) in H.
    rewrite !string_length_app in H. simpl in H. lia.
  - simpl in H. injection H as -> H. f_equal. by apply IH.
Qed.

(** The intermediate files of different turns have different names. *)
Theorem segment_file_inj d i j : segment_file d i = segment_file d j → i = j.
Proof.
  unfold segment_file. intros H. apply (inj pretty).
  apply (string_app_inv_tail _ _ ".mp3"). by simplify_eq/=.
Qed.

Lemma segment_file_inj_witness : 10%nat = 10%nat.
Proof. apply (segment_file_inj 0 10 10). reflexivity. Defined.

Lemma service_failure_propagates_witness :
  let run := generate_podcast_audio Demo.stubborn
               (U ("Host: Welcome!" +:+ lf +:+ "Guest: Thanks." +:+ lf +:+ "Host: Bye"))
               "podcast.mp3" (Demo.empty_world DemoApp.env_offline_guest) in
  run.1 = Raise (ServiceError "No audio was received") ∧
  calls run.2 = [call_of 0 0 (U "Host", U "Welcome!");
                 call_of 0 1 (U "Guest", U "Thanks.")] ∧
  files run.2 = ∅.
Proof.
  apply (service_failure_propagates (E := DemoApp.env_offline_guest) Demo.stubborn
           (U ("Host: Welcome!" +:+ lf +:+ "Guest: Thanks." +:+ lf +:+ "Host: Bye"))
           "podcast.mp3" (Demo.empty_world DemoApp.env_offline_guest)
           [(U "Host", U "Welcome!")] (U "Guest", U "Thanks.") [(U "Host", U "Bye")]
           [Demo.speak (call_of 0 0 (U "Host", U "Welcome!"))] "No audio was received").
  - reflexivity.
  - constructor; [|constructor]. eexists. split; reflexivity.
  - reflexivity.
Defined.

(** * Properties of the other functions of [utils.py] *)

Section UtilsFacts.
Context {E : Env}.
Variable Sv : Services E.
Implicit Types (w : AppWorld E).

Lemma app_bind_ok {A B} (m : App E A) (f : A → App E B) w a w' :
  m w = (Ok a, w') → (m ≫= f) w = f a w'.
Proof. intros H. unfold mbind, App_bind. by rewrite H. Qed.

Lemma app_bind_raise {A B} (m : App E A) (f : A → App E B) w e w' :
  m w = (Raise e, w') → (m ≫= f) w = (Raise e, w').
Proof. intros H. unfold mbind, App_bind. by rewrite H. Qed.

Lemma result_section_cons i result : ∃ t, result_section i result = 0x5B :: t.
Proof. unfold result_section. by eexists. Qed.

Lemma foldl_sections (acc : str) (rs : list (nat * gmap string str)) :
  foldl (λ combined_text '(i, result), combined_text ++ result_section i result)
    acc rs
  = acc ++ mjoin ((λ '(i, result), result_section i result) <$> rs).
Proof.
  revert acc. induction rs as [|[i r] rs IH]; intros acc; simpl.
  - by rewrite app_nil_r.
  - by rewrite IH, <-app_assoc.
Qed.

Lemma imap_sections (rs : list (gmap string str)) :
  (λ '(i, result), result_section i result)
    <$> imap (λ i result, (S i, result)) rs
  = imap (λ i result, result_section (S i) result) rs.
Proof.
  generalize S. induction rs as [|r rs IH]; intros f; simpl; [done|].
  f_equal. apply (IH (f ∘ S)).
Qed.

(** The run of [search_web]: one request, and the text of the response or
    the error of the service. *)
Lemma search_web_run query key n w :
  search_web Sv query key n w
  = (match tavily_search Sv key query n with
     | inl response => Ok (search_text response)
     | inr msg => Raise (ServiceError msg)
     end, (request (SearchRequest key query "advanced" n true) w).2).
Proof.
  unfold search_web, search_text.
  rewrite (app_bind_ok _ _ w () (request (SearchRequest key query "advanced" n true) w).2)
    by done.
  destruct (tavily_search Sv key query n) as [response|msg]; [|done].
  unfold answered, mbind, App_bind, mret, App_ret. cbn beta iota. f_equal. f_equal.
  rewrite foldl_sections, imap_sections.
  by destruct (answer response) as [a|]; [destruct (bool_decide (a = []))|].
Qed.

End UtilsFacts.



Section UtilsRuns.
Context {E : Env}.
Variable Sv : Services E.
Implicit Types (w : AppWorld E).

Lemma summarize_search_results_run topic search_results key w :
  summarize_search_results Sv topic search_results key w
  = (match generate_content Sv key (summary_prompt topic search_results) with
     | inl text => Ok (if bool_decide (text = []) then search_results else text)
     | inr msg => Raise (ServiceError msg)
     end,
     (request (GenerateRequest key "gemini-2.0-flash"
                 (summary_prompt topic search_results) false) w).2).
Proof.
  unfold summarize_search_results.
  rewrite (app_bind_ok _ _ w ()
             (request (GenerateRequest key "gemini-2.0-flash"
                         (summary_prompt topic search_results) false) w).2) by done.
  by destruct (generate_content Sv key _) as [text|msg].
Qed.

Lemma generate_script_run topic search_results key w :
  generate_script Sv topic search_results key w
  = (match generate_content Sv key (_build_script_prompt topic search_results) with
     | inl text => Ok text
     | inr msg => Raise (ServiceError msg)
     end,
     (request (GenerateRequest key "gemini-2.0-flash"
                 (_build_script_prompt topic search_results) false) w).2).
Proof.
  unfold generate_script.
  rewrite (app_bind_ok _ _ w ()
             (request (GenerateRequest key "gemini-2.0-flash"
                         (_build_script_prompt topic search_results) false) w).2) by done.
  by destruct (generate_content Sv key _) as [text|msg].
Qed.

Lemma mjoin_filter_nonempty (chunks : list str) :
  mjoin (filter (λ text, text ≠ []) chunks) = mjoin chunks.
Proof.
  induction chunks as [|c chunks IH]; [done|].
  destruct (decide (c = [])) as [->|Hc].
  - by rewrite filter_cons_False by (by intros ?).
  - rewrite filter_cons_True by done.
    change (c ++ mjoin (filter (λ text, text ≠ []) chunks) = c ++ mjoin chunks).
    by rewrite IH.
Qed.

End UtilsRuns.



(** [generate_script_streaming] makes one streaming request and yields the
    chunks of the stream that are not empty, in their order: put together,
    what it yields is the text of the whole stream. *)
Theorem generate_script_streaming_yields {E : Env} (Sv : Services E)
    topic search_results key (w : AppWorld E) :
  let prompt := _build_script_prompt topic search_results in
  let chunks := (generate_content_stream Sv key prompt).1 in
  ∃ yields failure,
    generate_script_streaming Sv topic search_results key w
    = (Ok (yields, failure),
       (request (GenerateRequest key "gemini-2.0-flash" prompt true) w).2) ∧
    Forall (λ text, text ≠ []) yields ∧
    sublist yields chunks ∧
    mjoin yields = mjoin chunks.
Proof.
  intros prompt chunks. subst chunks. unfold generate_script_streaming.
  fold prompt.
  rewrite (app_bind_ok _ _ w ()
             (request (GenerateRequest key "gemini-2.0-flash" prompt true) w).2) by done.
  destruct (generate_content_stream Sv key prompt) as [chunks failure]. cbn [fst].
  eexists _, _. split; [done|]. split; [|split].
  - apply Forall_forall. by intros text [? _]%list_elem_of_filter.
  - apply sublist_filter.
  - apply mjoin_filter_nonempty.
Qed.

(** * The outcomes of the pipeline *)

(** ** A normal return *)

Section PipelineReturns.
Context {E : Env}.
Implicit Types (w : World E) (F : Faults) (d i : nat).

Lemma calls_from_length d i turns : length (calls_from d i turns) = length turns.
Proof. revert i. induction turns as [|t turns IH]; intros i; simpl; [done | by rewrite IH]. Qed.

Lemma try_block_ok d turns out w p w' :
  turns ≠ [] → try_block d turns out w = (Ok p, w') →
  p = out ∧ ∃ a, files w' = <[out := a]> (files w).
Proof.
  intros Hne. unfold try_block.
  destruct (synthesize_turns d 0 turns [] w) as [[segs|e] w1] eqn:H1.
  - rewrite (bind_ok _ _ _ _ _ H1).
    pose proof (synthesize_turns_length _ _ _ _ _ _ _ H1) as Hlen.
    destruct (synthesize_turns_frame _ _ _ _ _ _ _ H1) as ((_ & _ & Hf) & _).
    destruct segs as [|first rest].
    { destruct turns; simpl in Hlen; [done | lia]. }
    unfold assemble, mbind, M_bind, mret, M_ret, export.
    destruct (export_mp3 E _ out) as [|[a|] msg]; [|done..].
    intros [= <- <-]. split; [done|]. eexists. cbn [files]. by rewrite Hf.
  - by rewrite (bind_raise _ _ _ _ _ H1).
Qed.

Lemma generate_podcast_audio_ok F script out w p w' :
  generate_podcast_audio F script out w = (Ok p, w') →
  p = out ∧ parse_script script ≠ [] ∧
  (∃ a, files w' = <[out := a]> (files w)) ∧
  calls w' = calls w ++ calls_from (fresh (dom (dirs w))) 0 (parse_script script).
Proof.
  intros Hrun. destruct (decide (parse_script script = [])) as [Hnil|Hne].
  { by rewrite generate_podcast_audio_nil in Hrun. }
  destruct (try_block (fresh (dom (dirs w))) (parse_script script) out
              (set_dirs <[fresh (dom (dirs w)) := ∅]> w)) as [rb wb] eqn:Hbody.
  destruct (generate_podcast_audio_run F script out w rb wb Hne Hbody)
    as (w1 & Hrun1 & Hf & Hc & _).
  rewrite Hrun in Hrun1. injection Hrun1 as <- <-.
  destruct (try_block_ok _ _ _ _ _ _ Hne Hbody) as [-> [a Ha]].
  destruct (try_block_frame _ _ _ _ _ _ Hbody) as (_ & _ & n & Hcalls & ->).
  split; [done|]. split; [done|]. split.
  - exists a. by rewrite Hf, Ha.
  - rewrite Hc, Hcalls. cbn [set_dirs calls]. f_equal.
    apply take_ge. by rewrite calls_from_length.
Qed.
End PipelineReturns.

(** When [generate_podcast_audio] returns, it returns [output_path], the
    script had turns, the speech service was called once for every turn,
    and the combined audio is in the file [output_path]; no other file
    outside the temporary directory was touched. *)
Theorem generate_podcast_audio_returns {E : Env} (F : Faults) script out
    (w : World E) p :
  let run := generate_podcast_audio F script out w in
  run.1 = Ok p →
  p = out ∧ parse_script script ≠ [] ∧
  (∃ audio, files run.2 = <[out := audio]> (files w)) ∧
  calls run.2 = calls w ++ calls_from (fresh (dom (dirs w))) 0 (parse_script script).
Proof.
  intros run Hp. subst run.
  destruct (generate_podcast_audio F script out w) as [r w'] eqn:Hrun.
  cbn [fst] in Hp. subst r. by eapply generate_podcast_audio_ok.
Qed.

Lemma generate_podcast_audio_returns_witness :
  let run := generate_podcast_audio Demo.stubborn (U "Host: Hi Guest: Hello")
               "podcast.mp3" (Demo.empty_world Demo.env) in
  "podcast.mp3" = "podcast.mp3" ∧
  parse_script (U "Host: Hi Guest: Hello") ≠ [] ∧
  (∃ audio, files run.2 = <["podcast.mp3" := audio]> (files (Demo.empty_world Demo.env))) ∧
  calls run.2
  = calls (Demo.empty_world Demo.env)
    ++ calls_from (fresh (dom (dirs (Demo.empty_world Demo.env)))) 0
         (parse_script (U "Host: Hi Guest: Hello")).
Proof.
  apply (generate_podcast_audio_returns Demo.stubborn (U "Host: Hi Guest: Hello")
           "podcast.mp3" (Demo.empty_world Demo.env) "podcast.mp3").
  vm_compute. reflexivity.
Defined.

(** ** The calls to the speech service *)

Lemma segment_name_inj (i j : nat) :
  "segment_" +:+ pretty i +:+ ".mp3" = "segment_" +:+ pretty j +:+ ".mp3" → i = j.
Proof.
  intros H. apply (inj pretty). apply (string_app_inv_tail _ _ ".mp3").
  by simplify_eq/=.
Qed.

Section Calls.
Context {E : Env}.
Implicit Types (w : World E) (F : Faults) (d i : nat).

Lemma synthesize_turn_calls d i turn acc w fs :
  dirs w !! d = Some fs → fs !! (segment_file d i).2 = None →
  ∃ r w' fs',
    synthesize_turn d i turn acc w = (r, w') ∧
    (match r with Ok _ => true | Raise _ => false end) = loads E (call_of d i turn) ∧
    dirs w' !! d = Some fs' ∧
    ∀ f, f ≠ (segment_file d i).2 → fs' !! f = fs !! f.
Proof.
  intros Hd Hnew. destruct turn as [speaker text].
  unfold synthesize_turn, loads, call_of, segment_file in *. cbn [fst snd] in *.
  unfold mbind at 1, M_bind at 1, _generate_single_audio. cbn [fst snd].
  rewrite Hd.
  destruct (communicate_save E _) as [[b|] [msg|]]; cbn [written raised].
  - eexists _, _, _. split; [done|]. split; [done|]. cbn [dirs].
    rewrite lookup_insert_eq. split; [done|]. intros f Hf. by rewrite lookup_insert_ne.
  - unfold except_as, mbind, M_bind, from_mp3, mret, M_ret, raise. cbn [dirs fst snd].
    rewrite lookup_insert_eq. cbn [mbind option_bind]. rewrite lookup_insert_eq.
    destruct (decode_mp3 E b) as [seg|msg]; eexists _, _, _;
      (split; [done|]); (split; [done|]); cbn [dirs]; rewrite lookup_insert_eq;
      (split; [done|]); intros f Hf; by rewrite lookup_insert_ne.
  - eexists _, _, _. split; [done|]. split; [done|]. cbn [dirs]. by rewrite Hd.
  - unfold except_as, mbind, M_bind, from_mp3, mret, M_ret, raise. cbn [dirs fst snd].
    rewrite Hd. cbn [mbind option_bind]. rewrite Hnew.
    eexists _, _, _. split; [done|]. split; [done|]. cbn [dirs]. by rewrite Hd.
Qed.

Lemma synthesize_turns_calls turns d i acc w fs :
  dirs w !! d = Some fs →
  (∀ j, (i ≤ j)%nat → fs !! (segment_file d j).2 = None) →
  calls (synthesize_turns d i turns acc w).2
  = calls w ++ until_failure E (calls_from d i turns).
Proof.
  revert i acc w fs. induction turns as [|turn turns IH]; intros i acc w fs Hd Hnew;
    cbn [synthesize_turns calls_from until_failure].
  { by rewrite app_nil_r. }
  destruct (synthesize_turn_calls d i turn acc w fs Hd (Hnew i (le_n i)))
    as (r & w1 & fs1 & H1 & Hr & Hd1 & Hfs1).
  destruct (synthesize_turn_frame _ _ _ _ _ _ _ H1) as [_ Hc].
  destruct r as [a|e].
  - rewrite (bind_ok _ _ _ _ _ H1), <-Hr.
    rewrite (IH (S i) a w1 fs1 Hd1), Hc, <-app_assoc; [done|].
    intros j Hj. rewrite Hfs1; [apply Hnew; lia|].
    unfold segment_file. cbn [snd]. intros Heq%segment_name_inj. lia.
  - rewrite (bind_raise _ _ _ _ _ H1), <-Hr. by cbn [snd].
Qed.

Lemma try_block_calls d turns out w fs :
  dirs w !! d = Some fs →
  (∀ j, fs !! (segment_file d j).2 = None) →
  calls (try_block d turns out w).2
  = calls w ++ until_failure E (calls_from d 0 turns).
Proof.
  intros Hd Hnew. unfold try_block.
  pose proof (synthesize_turns_calls turns d 0 [] w fs Hd (λ j _, Hnew j)) as Hc.
  destruct (synthesize_turns d 0 turns [] w) as [[segs|e] w1] eqn:H1; cbn [snd] in Hc.
  - rewrite (bind_ok _ _ _ _ _ H1).
    destruct (assemble segs out w1) as [r w2] eqn:H2.
    apply assemble_frame in H2 as [_ H2]. cbn [snd]. by rewrite H2.
  - by rewrite (bind_raise _ _ _ _ _ H1).
Qed.

Lemma generate_podcast_audio_calls F script out w :
  calls (generate_podcast_audio F script out w).2
  = calls w ++ until_failure E (calls_from (fresh (dom (dirs w))) 0 (parse_script script)).
Proof.
  destruct (decide (parse_script script = [])) as [Hnil|Hne].
  { rewrite generate_podcast_audio_nil, Hnil by done. cbn. by rewrite app_nil_r. }
  destruct (try_block (fresh (dom (dirs w))) (parse_script script) out
              (set_dirs <[fresh (dom (dirs w)) := ∅]> w)) as [rb wb] eqn:Hbody.
  destruct (generate_podcast_audio_run F script out w rb wb Hne Hbody)
    as (w' & -> & _ & Hc & _).
  cbn [snd]. rewrite Hc.
  pose proof (try_block_calls (fresh (dom (dirs w))) (parse_script script) out
                (set_dirs <[fresh (dom (dirs w)) := ∅]> w) ∅) as Hcalls.
  rewrite Hbody in Hcalls. cbn [snd set_dirs dirs calls] in Hcalls.
  apply Hcalls; [by rewrite lookup_insert_eq | done].
Qed.

Lemma calls_from_imap d i turns :
  calls_from d i turns
  = imap (λ k '(speaker, text),
            {| call_text := text;
               call_voice := if bool_decide (speaker = U "Host")
                             then "ko-KR-InJoonNeural" else "ko-KR-SunHiNeural";
               call_rate := "+20%";
               call_path := (d, "segment_" +:+ pretty (i + k)%nat +:+ ".mp3") |}) turns.
Proof.
  revert i. induction turns as [|[speaker text] turns IH]; intros i; [done|].
  cbn [calls_from imap]. f_equal.
  - unfold call_of, resolve_voice, segment_file. cbn [fst snd].
    by rewrite Nat.add_0_r.
  - rewrite IH. apply imap_ext. intros k [s t] _. unfold compose. cbv beta iota.
    by replace (S i + k)%nat with (i + S k)%nat by lia.
Qed.

Lemma until_failure_prefix (cs : list TtsCall) :
  ∃ n, until_failure E cs = take n cs.
Proof.
  induction cs as [|c cs [n IH]]; [by exists 0%nat|]. cbn [until_failure].
  destruct (loads E c); [exists (S n); by rewrite IH | by exists 1%nat].
Qed.

End Calls.

(** C8. The calls made to the speech service during a run are exactly the
    calls for the parsed turns, in their order, up to and including the
    first one that leaves no file that can be loaded (all of them when the
    run returns, and at least one when the script has turns).  Every call
    is made at the rate +20%, with the text of its turn; the call for a
    turn of Host uses the voice ko-KR-InJoonNeural and the call for a turn
    of Guest the voice ko-KR-SunHiNeural. *)
Theorem synthesis_voice_and_rate {E : Env} (F : Faults) script out (w : World E) :
  let d := fresh (dom (dirs w)) in
  let run := generate_podcast_audio F script out w in
  let turns := parse_script script in
  let expected :=
    imap (λ i '(speaker, text),
            {| call_text := text;
               call_voice := if bool_decide (speaker = U "Host")
                             then "ko-KR-InJoonNeural" else "ko-KR-SunHiNeural";
               call_rate := "+20%";
               call_path := (d, "segment_" +:+ pretty i +:+ ".mp3") |}) turns in
  let made := drop (length (calls w)) (calls run.2) in
  calls run.2 = calls w ++ made ∧
  made = until_failure E expected ∧
  (∀ p, run.1 = Ok p → made = expected) ∧
  (turns ≠ [] → made ≠ []) ∧
  (∀ i speaker text c,
     turns !! i = Some (speaker, text) → made !! i = Some c →
     call_text c = text ∧ call_rate c = "+20%" ∧
     (speaker = U "Host" → call_voice c = "ko-KR-InJoonNeural") ∧
     (speaker = U "Guest" → call_voice c = "ko-KR-SunHiNeural")).
Proof.
  intros d run turns expected made.
  assert (Hexp : calls_from d 0 turns = expected) by apply calls_from_imap.
  assert (Hcalls : calls run.2 = calls w ++ until_failure E expected).
  { rewrite <-Hexp. apply generate_podcast_audio_calls. }
  assert (Hmade : made = until_failure E expected).
  { subst made. by rewrite Hcalls, drop_app_length. }
  split; [by rewrite Hmade|]. split; [done|]. split; [|split].
  - intros p Hp. subst run.
    destruct (generate_podcast_audio F script out w) as [r w'] eqn:Hrun.
    cbn [fst snd] in *. subst r.
    apply generate_podcast_audio_ok in Hrun as (_ & _ & _ & Hall).
    subst made. cbn [snd]. rewrite Hall, drop_app_length. exact Hexp.
  - rewrite Hmade. subst expected. destruct turns as [|[speaker text] turns']; [done|].
    by intros _.
  - intros i speaker text c Hturn Hc. rewrite Hmade in Hc.
    destruct (until_failure_prefix (E := E) expected) as [n Hn]. rewrite Hn in Hc.
    apply lookup_take_Some in Hc as [Hc _]. subst expected.
    rewrite list_lookup_imap, Hturn in Hc. injection Hc as <-. cbn.
    split; [done|]. split; [done|]. split.
    + intros ->. by rewrite bool_decide_eq_true_2.
    + intros ->. by rewrite bool_decide_eq_false_2.
Qed.

(** ** The errors *)

Section PipelineErrors.
Context {E : Env}.
Implicit Types (w : World E) (F : Faults) (d i : nat).

Lemma synthesize_turn_raise_cases d i turn acc w e w' :
  is_Some (dirs w !! d) →
  synthesize_turn d i turn acc w = (Raise e, w') →
  (∃ msg, raised (communicate_save E (call_of d i turn)) = Some msg ∧
          e = ServiceError msg) ∨
  (∃ detail, e = RuntimeError (remediation +:+ detail)).
Proof.
  intros [fs Hd]. destruct turn as [speaker text].
  unfold synthesize_turn, call_of, segment_file. cbn [fst snd].
  unfold mbind at 1, M_bind at 1, _generate_single_audio. cbn [fst snd].
  rewrite Hd.
  destruct (raised (communicate_save E _)) as [msg|] eqn:Hr.
  { intros [= <- _]. left. by exists msg. }
  unfold except_as, mbind, M_bind, mret, M_ret, raise.
  destruct (from_mp3 _ _) as [[seg|e'] w2]; [done|].
  intros [= <- _]. right. by eexists.
Qed.

Lemma synthesize_turns_raise_cases turns d i acc w e w' :
  is_Some (dirs w !! d) →
  synthesize_turns d i turns acc w = (Raise e, w') →
  (∃ c msg, c ∈ calls_from d i turns ∧ raised (communicate_save E c) = Some msg ∧
            e = ServiceError msg) ∨
  (∃ detail, e = RuntimeError (remediation +:+ detail)).
Proof.
  revert i acc w. induction turns as [|turn turns IH]; intros i acc w Hd;
    cbn [synthesize_turns calls_from]; [done|].
  destruct (synthesize_turn d i turn acc w) as [[a|e1] w1] eqn:H1.
  - rewrite (bind_ok _ _ _ _ _ H1). intros Hrest.
    destruct (synthesize_turn_frame _ _ _ _ _ _ _ H1) as [(_ & Hd1 & _) _].
    destruct (IH _ _ _ (Hd1 Hd) Hrest) as [(c & msg & Hc & Hr & ->)|Hrt]; [left|by right].
    exists c, msg. split; [by right | done].
  - rewrite (bind_raise _ _ _ _ _ H1). intros [= <- _].
    destruct (synthesize_turn_raise_cases _ _ _ _ _ _ _ Hd H1)
      as [(msg & Hr & ->)|Hrt]; [left|by right].
    eexists _, msg. split; [by left | done].
Qed.

Lemma try_block_raise_cases d turns out w e w' :
  is_Some (dirs w !! d) →
  try_block d turns out w = (Raise e, w') →
  (∃ c msg, c ∈ calls_from d 0 turns ∧ raised (communicate_save E c) = Some msg ∧
            e = ServiceError msg) ∨
  (∃ detail, e = RuntimeError (remediation +:+ detail)) ∨
  (∃ seg left_behind msg, export_mp3 E seg out = ExportFailed left_behind msg ∧
                          e = ServiceError msg).
Proof.
  intros Hd. unfold try_block.
  destruct (synthesize_turns d 0 turns [] w) as [[segs|e1] w1] eqn:H1.
  - rewrite (bind_ok _ _ _ _ _ H1).
    unfold assemble, mbind, M_bind, mret, M_ret, export.
    destruct segs as [|first rest]; [done|].
    destruct (export_mp3 E _ out) as [|[a|] msg] eqn:Hx; [done| |];
      intros [= <- _]; right; right; by eexists _, _, _.
  - rewrite (bind_raise _ _ _ _ _ H1). intros [= <- _].
    destruct (synthesize_turns_raise_cases _ _ _ _ _ _ _ Hd H1) as [?|?]; auto.
Qed.

Lemma generate_podcast_audio_raise_cases F script out w e w' :
  generate_podcast_audio F script out w = (Raise e, w') →
  (parse_script script = [] ∧ e = ValueError unparsable) ∨
  (∃ c msg, c ∈ calls_from (fresh (dom (dirs w))) 0 (parse_script script) ∧
            raised (communicate_save E c) = Some msg ∧ e = ServiceError msg) ∨
  (∃ detail, e = RuntimeError (remediation +:+ detail)) ∨
  (∃ seg left_behind msg, export_mp3 E seg out = ExportFailed left_behind msg ∧
                          e = ServiceError msg).
Proof.
  intros Hrun. destruct (decide (parse_script script = [])) as [Hnil|Hne].
  { rewrite generate_podcast_audio_nil in Hrun by done. injection Hrun as <- _.
    by left. }
  right.
  destruct (try_block (fresh (dom (dirs w))) (parse_script script) out
              (set_dirs <[fresh (dom (dirs w)) := ∅]> w)) as [rb wb] eqn:Hbody.
  destruct (generate_podcast_audio_run F script out w rb wb Hne Hbody)
    as (w1 & Hrun1 & _).
  rewrite Hrun in Hrun1. injection Hrun1 as <- _.
  eapply try_block_raise_cases; [|done].
  cbn [set_dirs dirs]. by rewrite lookup_insert_eq.
Qed.

End PipelineErrors.

(** Whichever calls of [os.remove] and [os.rmdir] fail in the [finally]
    block, their errors are never raised: with [tempfile.mkdtemp] and
    [os.listdir] working, as they do in this model, an error that
    [generate_podcast_audio] raises is the [ValueError] for a script
    without turns, the error of the speech service for one of the turns
    (raised as it is), a [RuntimeError] that begins with the text about
    ffmpeg (whatever made the loading of a segment fail), or the error of
    the export. *)
Theorem generate_podcast_audio_errors {E : Env} (F : Faults) script out (w : World E) e :
  let d := fresh (dom (dirs w)) in
  (generate_podcast_audio F script out w).1 = Raise e →
  (parse_script script = [] ∧ e = ValueError unparsable) ∨
  (∃ c msg, c ∈ calls_from d 0 (parse_script script) ∧
            raised (communicate_save E c) = Some msg ∧ e = ServiceError msg) ∨
  (∃ detail, e = RuntimeError (remediation +:+ detail)) ∨
  (∃ seg left_behind msg, export_mp3 E seg out = ExportFailed left_behind msg ∧
                          e = ServiceError msg).
Proof.
  intros d He. destruct (generate_podcast_audio F script out w) as [r w'] eqn:Hrun.
  cbn [fst] in He. subst r. by eapply generate_podcast_audio_raise_cases.
Qed.

Lemma generate_podcast_audio_errors_witness :
  let w := Demo.empty_world Demo.env_corrupt_guest in
  let script := U "Host: Hi Guest: Hello" in
  let d := fresh (dom (dirs w)) in
  let e := RuntimeError (remediation +:+ "Decoding failed") in
  (parse_script script = [] ∧ e = ValueError unparsable) ∨
  (∃ c msg, c ∈ calls_from d 0 (parse_script script) ∧
            raised (communicate_save Demo.env_corrupt_guest c) = Some msg ∧
            e = ServiceError msg) ∨
  (∃ detail, e = RuntimeError (remediation +:+ detail)) ∨
  (∃ seg left_behind msg,
     export_mp3 Demo.env_corrupt_guest seg "podcast.mp3" = ExportFailed left_behind msg ∧
     e = ServiceError msg).
Proof.
  apply (generate_podcast_audio_errors (E := Demo.env_corrupt_guest) Demo.stubborn
           (U "Host: Hi Guest: Hello") "podcast.mp3"
           (Demo.empty_world Demo.env_corrupt_guest)
           (RuntimeError (remediation +:+ "Decoding failed"))).
  vm_compute. reflexivity.
Defined.

(** * Properties of the page of [app.py] *)

Section AppFacts.
Context {E : Env}.
Variable Sv : Services E.
Variable F : Faults.
Implicit Types (w : AppWorld E) (i : Inputs).

Lemma app_bind_eq {A B} (m : App E A) (f : A → App E B) w :
  (m ≫= f) w = match m w with
               | (Ok a, w') => f a w'
               | (Raise e, w') => (Raise e, w')
               end.
Proof. reflexivity. Qed.

Lemma app_ret_eq {A} (a : A) w : (mret a : App E A) w = (Ok a, w).
Proof. reflexivity. Qed.

Lemma draw_bind {B} (u : Ui) (f : () → App E B) w :
  (draw u ≫= f) w = f () (drawn [u] w).
Proof. reflexivity. Qed.

Lemma draw_run (u : Ui) w : draw u w = (Ok (), drawn [u] w).
Proof. reflexivity. Qed.

Lemma drawn_drawn (evs evs' : list Ui) w :
  drawn evs' (drawn evs w) = drawn (evs ++ evs') w.
Proof. unfold drawn. cbn [base empty_files requests session screen]. by rewrite app_assoc. Qed.

Lemma drawn_nil w : drawn [] w = w.
Proof. destruct w as [b ef rq s sc]. unfold drawn. cbn [base empty_files requests session screen]. by rewrite app_nil_r. Qed.

Lemma display_results_run w :
  display_results w = (Ok (), drawn (results_view (session w)) w).
Proof.
  unfold display_results, results_view.
  rewrite app_bind_eq. cbn [get_session].
  destruct (generated_script (session w)) as [script|];
    [|by rewrite app_ret_eq, drawn_nil].
  destruct (generated_audio (session w)) as [audio|];
    [|by rewrite app_ret_eq, drawn_nil].
  destruct (bool_decide (script ≠ [] ∧ audio ≠ []));
    [|by rewrite app_ret_eq, drawn_nil].
  rewrite !draw_bind, draw_run, !drawn_drawn. reflexivity.
Qed.

Lemma sidebar_run w : sidebar Sv w = (Ok (), drawn (sidebar_view Sv) w).
Proof.
  unfold sidebar, sidebar_view, check_ffmpeg. rewrite app_bind_eq, app_ret_eq.
  destruct (which_ffmpeg Sv); [by rewrite app_ret_eq, drawn_nil | done].
Qed.

Lemma main_run i w :
  main Sv F i w
  = let w0 := drawn (sidebar_view Sv) w in
    if generate_button i then
      if bool_decide (gemini_api_key i = [])
      then (Ok (), drawn [UiError "❌ Gemini API 키를 입력해주세요."] w0)
      else if bool_decide (tavily_api_key i = [])
      then (Ok (), drawn [UiError "❌ Tavily API 키를 입력해주세요."] w0)
      else if bool_decide (strip (topic i) = [])
      then (Ok (), drawn [UiError "❌ 팟캐스트 주제를 입력해주세요."] w0)
      else if which_ffmpeg Sv
      then match app_except (generation Sv F i) report (drawn [UiProgress 0] w0) with
           | (Ok _, w1) => (Ok (), drawn (results_view (session w1)) w1)
           | (Raise e, w1) => (Raise e, w1)
           end
      else (Ok (), drawn [UiError "❌ ffmpeg가 설치되어 있지 않습니다. 사이드바의 안내를 참고해주세요."] w0)
    else (Ok (), drawn (results_view (session w)) w0).
Proof.
  unfold main. rewrite app_bind_eq, sidebar_run, app_bind_eq.
  unfold initialize_session. rewrite app_ret_eq. cbv zeta.
  destruct (generate_button i); [|by rewrite display_results_run].
  destruct (bool_decide (gemini_api_key i = [])); [done|].
  destruct (bool_decide (tavily_api_key i = [])); [done|].
  destruct (bool_decide (strip (topic i) = [])); [done|].
  rewrite app_bind_eq. unfold check_ffmpeg. rewrite app_ret_eq.
  destruct (which_ffmpeg Sv); cbn [negb]; [|done].
  rewrite draw_bind, app_bind_eq.
  destruct (app_except _ _ _) as [[[]|e] w1]; [|done].
  by rewrite display_results_run.
Qed.

Ltac app_world :=
  cbn [draw request set_session fst snd base empty_files requests session screen].

Ltac app_draws := repeat (rewrite app_bind_eq; progress app_world).

Lemma draw_eq (u : Ui) w :
  draw u w = (Ok (), {| base := base w; empty_files := empty_files w;
                        requests := requests w; session := session w;
                        screen := screen w ++ [u] |}).
Proof. reflexivity. Qed.

Ltac app_done :=
  app_draws; rewrite ?draw_eq; app_world; rewrite <-?app_assoc; cbn [app];
  reflexivity.

Lemma report_run e w : report e w = (Ok (), drawn (failure e) w).
Proof. unfold report. by rewrite !draw_bind, draw_run, !drawn_drawn. Qed.

Lemma attempt_run i w :
  app_except (generation Sv F i) report w
  = let ev1 := [UiStatus "🔍 **Step 1/4: 관련 정보를 검색하는 중...**"; UiProgress 10] in
    let ev2 := [UiProgress 20;
                UiStatus "✅ 검색 완료! 관련 자료를 찾았습니다.";
                UiStatus "📋 **Step 2/4: 검색 결과를 정리하는 중... (Gemini 2.0 Flash)**";
                UiProgress 25;
                UiSpinner "검색 결과를 정리하고 있습니다..."] in
    let ev3 := [UiProgress 35;
                UiStatus "✅ 자료 정리 완료!";
                UiStatus "✍️ **Step 3/4: AI가 팟캐스트 대본을 작성하는 중... (Gemini 2.0 Flash)**";
                UiProgress 40;
                UiMarkdown "##### 📝 대본 생성 중...";
                UiSpinner "Gemini가 대본을 작성하고 있습니다..."] in
    let ev4 := [UiProgress 60;
                UiStatus "✅ 대본 작성 완료!";
                UiPreviewCleared;
                UiStatus "🎵 **Step 4/4: 음성을 생성하는 중...**";
                UiProgress 65;
                UiInfo "🎤 음성 합성을 준비하고 있습니다...";
                UiInfo "🎤 Host와 Guest의 대화를 음성으로 변환하는 중... (약 30초~1분 소요)"] in
    let ev5 := [UiProgress 95;
                UiSuccess "✅ 음성 합성 완료!";
                UiProgress 100;
                UiStatus "🎉 **팟캐스트 생성 완료!**"] in
    let r1 := SearchRequest (tavily_api_key i) (topic i) "advanced" 5 true in
    match tavily_search Sv (tavily_api_key i) (topic i) 5 with
    | inr msg =>
        (Ok (), {| base := base w; empty_files := empty_files w;
                   requests := requests w ++ [r1]; session := session w;
                   screen := screen w ++ ev1 ++ failure (ServiceError msg) |})
    | inl response =>
    let search_results := search_text response in
    let r2 := GenerateRequest (gemini_api_key i) "gemini-2.0-flash"
                (summary_prompt (topic i) search_results) false in
    match generate_content Sv (gemini_api_key i)
            (summary_prompt (topic i) search_results) with
    | inr msg =>
        (Ok (), {| base := base w; empty_files := empty_files w;
                   requests := requests w ++ [r1; r2]; session := session w;
                   screen := screen w ++ ev1 ++ ev2 ++ failure (ServiceError msg) |})
    | inl text =>
    let summarized_results := if bool_decide (text = []) then search_results else text in
    let r3 := GenerateRequest (gemini_api_key i) "gemini-2.0-flash"
                (_build_script_prompt (topic i) summarized_results) false in
    match generate_content Sv (gemini_api_key i)
            (_build_script_prompt (topic i) summarized_results) with
    | inr msg =>
        (Ok (), {| base := base w; empty_files := empty_files w;
                   requests := requests w ++ [r1; r2; r3]; session := session w;
                   screen := screen w ++ ev1 ++ ev2 ++ ev3 ++ failure (ServiceError msg) |})
    | inl script =>
    let audio_path := temp_name Sv (dom (files (base w)) ∪ empty_files w) in
    match generate_podcast_audio F script audio_path (base w) with
    | (Raise e, b) =>
        (Ok (), {| base := b; empty_files := {[audio_path]} ∪ empty_files w;
                   requests := requests w ++ [r1; r2; r3]; session := session w;
                   screen := screen w ++ ev1 ++ ev2 ++ ev3 ++ ev4 ++ failure e |})
    | (Ok _, b) =>
        (Ok (),
         (unlink Sv audio_path
            {| base := b; empty_files := {[audio_path]} ∪ empty_files w;
               requests := requests w ++ [r1; r2; r3];
               session :=
                 {| generated_script := Some script;
                    generated_audio :=
                      Some (from_option (mp3_bytes Sv) [] (files b !! audio_path));
                    generated_topic := Some (topic i) |};
               screen := screen w ++ ev1 ++ ev2 ++ ev3 ++ ev4 ++ ev5 |}).2)
    end end end end.
Proof.
  cbv zeta. unfold app_except, generation, report, failure.
  app_draws. rewrite app_bind_eq, search_web_run.
  destruct (tavily_search Sv _ _ _) as [response|msg]; app_world.
  2:{ app_done. }
  app_draws. rewrite app_bind_eq, summarize_search_results_run.
  destruct (generate_content Sv _ (summary_prompt _ _)) as [text|msg]; app_world.
  2:{ app_done. }
  app_draws. rewrite app_bind_eq, generate_script_run.
  destruct (generate_content Sv _ (_build_script_prompt _ _)) as [script|msg]; app_world.
  2:{ app_done. }
  app_draws. rewrite app_bind_eq. unfold named_temporary_file at 1. app_world.
  app_draws. rewrite app_bind_eq. unfold in_pipeline at 1. app_world.
  destruct (generate_podcast_audio F script _ (base w)) as [[p|e] b] eqn:Hrun.
  2:{ app_done. }
  apply generate_podcast_audio_ok in Hrun as (_ & _ & [a Ha] & _).
  app_draws. rewrite app_bind_eq. unfold read_bytes at 1. app_world.
  rewrite Ha, lookup_insert_eq.
  app_draws.
  unfold app_except_pass. app_world.
  cbn [from_option]. rewrite <-?app_assoc. cbn [app]. reflexivity.
Qed.

Lemma unlink_frame path w :
  requests (unlink Sv path w).2 = requests w ∧
  session (unlink Sv path w).2 = session w ∧
  screen (unlink Sv path w).2 = screen w.
Proof.
  unfold unlink. destruct (unlink_fails Sv path); [done|].
  by destruct (bool_decide _).
Qed.

Lemma unlink_ok path w :
  unlink_fails Sv path = false → path ∈ empty_files w →
  files (base (unlink Sv path w).2) = delete path (files (base w)) ∧
  dirs (base (unlink Sv path w).2) = dirs (base w) ∧
  calls (base (unlink Sv path w).2) = calls (base w) ∧
  empty_files (unlink Sv path w).2 = empty_files w ∖ {[path]}.
Proof.
  intros Hok Hin. unfold unlink. rewrite Hok.
  by rewrite bool_decide_eq_true_2 by (by apply elem_of_union_r).
Qed.

(** Every run of the [try] statement ends normally. *)
Lemma attempt_outcome i w :
  ∃ evs w',
    app_except (generation Sv F i) report w = (Ok (), w') ∧
    screen w' = screen w ++ evs ∧
    StronglySorted lt (0%nat :: progress_values evs) ∧
    last (progress_values evs) = Some 100%nat ∧
    ((errors evs = [] ∧
      ∃ script audio,
        session w' = {| generated_script := Some script;
                        generated_audio := Some audio;
                        generated_topic := Some (topic i) |} ∧
        parse_script script ≠ []) ∨
     (∃ msg, errors evs = [msg] ∧ session w' = session w)).
Proof.
  rewrite attempt_run. cbv zeta.
  destruct (tavily_search Sv _ _ _) as [response|msg].
  2:{ eexists _, _. split; [reflexivity|]. split; [reflexivity|].
      split; [repeat constructor|]. split; [reflexivity|]. right. by eexists. }
  destruct (generate_content Sv _ (summary_prompt _ _)) as [text|msg].
  2:{ eexists _, _. split; [reflexivity|]. split; [reflexivity|].
      split; [repeat constructor|]. split; [reflexivity|]. right. by eexists. }
  destruct (generate_content Sv _ (_build_script_prompt _ _)) as [script|msg].
  2:{ eexists _, _. split; [reflexivity|]. split; [reflexivity|].
      split; [repeat constructor|]. split; [reflexivity|]. right. by eexists. }
  destruct (generate_podcast_audio F script _ (base w)) as [[p|e] b] eqn:Hrun.
  2:{ eexists _, _. split; [reflexivity|]. split; [reflexivity|].
      split; [repeat constructor|]. split; [reflexivity|]. right. by eexists. }
  apply generate_podcast_audio_ok in Hrun as (_ & Hne & _ & _).
  match goal with
  | |- context [unlink Sv ?p ?W] =>
      destruct (unlink_frame p W) as (_ & Hsess & Hscr)
  end. cbn [session screen] in Hsess, Hscr.
  eexists _, _. split; [reflexivity|]. split; [exact Hscr|].
  split; [repeat constructor|]. split; [reflexivity|]. left.
  split; [reflexivity|]. eexists _, _. split; [exact Hsess | done].
Qed.

Lemma main_valid_run i w :
  valid Sv i →
  main Sv F i w
  = (Ok (),
     drawn (results_view
              (session (app_except (generation Sv F i) report
                          (drawn [UiProgress 0] w)).2))
       (app_except (generation Sv F i) report (drawn [UiProgress 0] w)).2).
Proof.
  intros (Hb & Hg & Ht & Hs & Hf). rewrite main_run. cbv zeta.
  unfold sidebar_view. rewrite Hb, Hf, drawn_nil.
  rewrite !bool_decide_eq_false_2 by done.
  destruct (attempt_outcome i (drawn [UiProgress 0] w)) as (evs & w' & -> & _).
  reflexivity.
Qed.

Lemma screen_split (s a b r : list Ui) : ((s ++ a) ++ b) ++ r = s ++ (a ++ b) ++ r.
Proof. by rewrite <-!app_assoc. Qed.

Lemma main_session i w :
  session (main Sv F i w).2 = session w ∨
  valid Sv i ∧
  ∃ script audio,
    session (main Sv F i w).2
    = {| generated_script := Some script; generated_audio := Some audio;
         generated_topic := Some (topic i) |} ∧
    parse_script script ≠ [].
Proof.
  destruct (generate_button i) eqn:Hb.
  2:{ left. rewrite main_run. cbv zeta. by rewrite Hb. }
  destruct (decide (gemini_api_key i = [])) as [Hg|Hg].
  { left. rewrite main_run. cbv zeta. by rewrite Hb, (bool_decide_eq_true_2 _ Hg). }
  destruct (decide (tavily_api_key i = [])) as [Ht|Ht].
  { left. rewrite main_run. cbv zeta.
    by rewrite Hb, (bool_decide_eq_false_2 _ Hg), (bool_decide_eq_true_2 _ Ht). }
  destruct (decide (strip (topic i) = [])) as [Hs|Hs].
  { left. rewrite main_run. cbv zeta.
    by rewrite Hb, (bool_decide_eq_false_2 _ Hg), (bool_decide_eq_false_2 _ Ht),
         (bool_decide_eq_true_2 _ Hs). }
  destruct (which_ffmpeg Sv) eqn:Hf.
  2:{ left. rewrite main_run. cbv zeta.
      by rewrite Hb, (bool_decide_eq_false_2 _ Hg), (bool_decide_eq_false_2 _ Ht),
           (bool_decide_eq_false_2 _ Hs), Hf. }
  assert (Hv : valid Sv i) by done.
  rewrite (main_valid_run i w Hv).
  destruct (attempt_outcome i (drawn [UiProgress 0] w))
    as (evs & w' & -> & _ & _ & _ & [[_ (script & audio & Hsess & Hne)]|(msg & _ & Hsess)]).
  - right. split; [done|]. by exists script, audio.
  - by left.
Qed.
End AppFacts.

(** A rerun in which the button was not pressed draws the sidebar and the
    results that the session holds, and does nothing else: no request is
    made, no file is created and the session is as it was. *)
Theorem main_idle {E : Env} (Sv : Services E) (F : Faults) i (w : AppWorld E) :
  generate_button i = false →
  main Sv F i w = (Ok (), drawn (sidebar_view Sv ++ results_view (session w)) w).
Proof. intros Hb. rewrite main_run. cbv zeta. by rewrite Hb, drawn_drawn. Qed.

(** When the button is pressed and the inputs do not pass the validation
    (a key is missing, the topic is blank, or ffmpeg is not found), the run
    draws one error after the sidebar and stops: no request is made,
    nothing is stored, and the results that the session holds are not
    drawn. *)
Theorem main_rejects_invalid_inputs {E : Env} (Sv : Services E) (F : Faults) i
    (w : AppWorld E) :
  generate_button i = true → ¬ valid Sv i →
  ∃ msg, main Sv F i w = (Ok (), drawn (sidebar_view Sv ++ [UiError msg]) w).
Proof.
  intros Hb Hnv. rewrite main_run. cbv zeta. rewrite Hb.
  destruct (bool_decide_reflect (gemini_api_key i = [])) as [Hg|Hg];
    [eexists; by rewrite drawn_drawn|].
  destruct (bool_decide_reflect (tavily_api_key i = [])) as [Ht|Ht];
    [eexists; by rewrite drawn_drawn|].
  destruct (bool_decide_reflect (strip (topic i) = [])) as [Hs|Hs];
    [eexists; by rewrite drawn_drawn|].
  destruct (which_ffmpeg Sv) eqn:Hf; [|eexists; by rewrite drawn_drawn].
  by destruct Hnv.
Qed.

(** With inputs that pass the validation, [main] never raises, whatever the
    services and the pipeline do.  The progress bar starts at 0, only moves
    forward and ends at 100.  Either one error is drawn and the session is
    as it was, or no error is drawn and the session holds the new script,
    in which turns are found, its audio and the topic.  The results that
    the session holds at the end are drawn last. *)
Theorem main_valid_outcome {E : Env} (Sv : Services E) (F : Faults) i (w : AppWorld E) :
  let run := main Sv F i w in
  valid Sv i →
  run.1 = Ok () ∧
  ∃ evs,
    screen run.2 = screen w ++ evs ++ results_view (session run.2) ∧
    StronglySorted lt (progress_values evs) ∧
    head (progress_values evs) = Some 0%nat ∧
    last (progress_values evs) = Some 100%nat ∧
    ((errors evs = [] ∧
      ∃ script audio,
        session run.2 = {| generated_script := Some script;
                          generated_audio := Some audio;
                          generated_topic := Some (topic i) |} ∧
        parse_script script ≠ []) ∨
     (∃ msg, errors evs = [msg] ∧ session run.2 = session w)).
Proof.
  intros run Hv. subst run. rewrite (main_valid_run Sv F i w Hv).
  destruct (attempt_outcome Sv F i (drawn [UiProgress 0] w))
    as (evs & w' & -> & Hscr & Hsort & Hlast & Hcases).
  cbn [fst snd]. split; [done|]. exists (UiProgress 0 :: evs).
  unfold drawn at 1. cbn [session screen]. rewrite Hscr.
  split; [apply (screen_split (screen w) [UiProgress 0])|].
  split; [done|]. split; [done|]. split.
  - change (progress_values (UiProgress 0 :: evs)) with (0%nat :: progress_values evs).
    rewrite last_cons, Hlast. done.
  - done.
Qed.

(** The session stays consistent over every run of [main]: it holds
    nothing, or a script in which turns are found together with its audio
    and a topic that is not blank. *)
Theorem main_session_consistent {E : Env} (Sv : Services E) (F : Faults) i
    (w : AppWorld E) :
  consistent (session w) → consistent (session (main Sv F i w).2).
Proof.
  intros Hc. destruct (main_session Sv F i w) as [->|[Hv (script & audio & -> & Hne)]];
    [done|].
  right. exists script, audio, (topic i). split; [done|]. split; [done|]. apply Hv.
Qed.

(** When the search fails, the run with valid inputs stops there: the
    search request is the only request, no file is created or changed, the
    session is as it was, the progress bar goes from 10 to 100, the error
    of the service is drawn after the fixed prefix, and the results of an
    earlier run are still drawn below it. *)
Theorem main_search_failure {E : Env} (Sv : Services E) (F : Faults) i (w : AppWorld E)
    msg :
  let run := main Sv F i w in
  valid Sv i →
  tavily_search Sv (tavily_api_key i) (topic i) 5 = inr msg →
  requests run.2
  = requests w ++ [SearchRequest (tavily_api_key i) (topic i) "advanced" 5 true] ∧
  base run.2 = base w ∧ empty_files run.2 = empty_files w ∧
  session run.2 = session w ∧
  ∃ evs,
    screen run.2 = screen w ++ evs ++ results_view (session w) ∧
    progress_values evs = [0; 10; 100]%nat ∧
    errors evs = ["❌ 오류가 발생했습니다: " +:+ msg].
Proof.
  intros run Hv Hs. subst run. rewrite (main_valid_run Sv F i w Hv).
  rewrite attempt_run. cbv zeta. cbn [drawn base empty_files requests session screen].
  rewrite Hs. cbn [snd drawn base empty_files requests session screen].
  split; [done|]. split; [done|]. split; [done|]. split; [done|].
  eexists. split; [apply screen_split|]. split; reflexivity.
Qed.

(** When the three services answer and [generate_podcast_audio] raises, the
    error is drawn after the fixed prefix and the session is as it was;
    the temporary file made for the audio is not removed, since the call of
    [os.unlink] is never reached. *)
Theorem main_pipeline_failure {E : Env} (Sv : Services E) (F : Faults) i
    (w : AppWorld E) response (text script : str) e :
  let search_results := search_text response in
  let summarized_results := if bool_decide (text = []) then search_results else text in
  let audio_path := temp_name Sv (dom (files (base w)) ∪ empty_files w) in
  let produced := generate_podcast_audio F script audio_path (base w) in
  let run := main Sv F i w in
  valid Sv i →
  tavily_search Sv (tavily_api_key i) (topic i) 5 = inl response →
  generate_content Sv (gemini_api_key i) (summary_prompt (topic i) search_results)
    = inl text →
  generate_content Sv (gemini_api_key i)
    (_build_script_prompt (topic i) summarized_results) = inl script →
  produced.1 = Raise e →
  audio_path ∈ empty_files run.2 ∧
  base run.2 = produced.2 ∧
  session run.2 = session w ∧
  ∃ evs,
    screen run.2 = screen w ++ evs ++ results_view (session w) ∧
    progress_values evs = [0; 10; 20; 25; 35; 40; 60; 65; 100]%nat ∧
    errors evs = ["❌ 오류가 발생했습니다: " +:+ str_of_exn e].
Proof.
  intros search_results summarized_results audio_path produced run Hv Hs Hm Hg He.
  subst run. rewrite (main_valid_run Sv F i w Hv).
  rewrite attempt_run. cbv zeta. cbn [drawn base empty_files requests session screen].
  subst search_results summarized_results audio_path produced.
  rewrite Hs. cbv beta iota. rewrite Hm. cbv beta iota. rewrite Hg. cbv beta iota.
  destruct (generate_podcast_audio F script _ (base w)) as [r b].
  cbn [fst] in He. subst r.
  cbn [snd drawn base empty_files requests session screen].
  split; [by apply elem_of_union_l, elem_of_singleton|].
  split; [done|]. split; [done|].
  eexists. split; [apply screen_split|]. split; reflexivity.
Qed.

(** The run in which everything works.  The three requests are made in
    order, each built from the answer to the one before: the summary is
    asked for the text of the search, and the script for the summary (or
    for the text of the search, when the summary is empty).  The session
    holds the script, the bytes of the file that the pipeline wrote, and
    the topic.  When the temporary file was new and its removal works, the
    files are afterwards as they were before the run. *)
Theorem main_success {E : Env} (Sv : Services E) (F : Faults) i
    (w : AppWorld E) response (text script : str) p :
  let search_results := search_text response in
  let summarized_results := if bool_decide (text = []) then search_results else text in
  let audio_path := temp_name Sv (dom (files (base w)) ∪ empty_files w) in
  let produced := generate_podcast_audio F script audio_path (base w) in
  let run := main Sv F i w in
  valid Sv i →
  tavily_search Sv (tavily_api_key i) (topic i) 5 = inl response →
  generate_content Sv (gemini_api_key i) (summary_prompt (topic i) search_results)
    = inl text →
  generate_content Sv (gemini_api_key i)
    (_build_script_prompt (topic i) summarized_results) = inl script →
  produced.1 = Ok p →
  audio_path ∉ dom (files (base w)) ∪ empty_files w →
  unlink_fails Sv audio_path = false →
  (∃ audio,
     files produced.2 !! audio_path = Some audio ∧
     session run.2 = {| generated_script := Some script;
                        generated_audio := Some (mp3_bytes Sv audio);
                        generated_topic := Some (topic i) |}) ∧
  requests run.2
  = requests w ++
    [SearchRequest (tavily_api_key i) (topic i) "advanced" 5 true;
     GenerateRequest (gemini_api_key i) "gemini-2.0-flash"
       (summary_prompt (topic i) search_results) false;
     GenerateRequest (gemini_api_key i) "gemini-2.0-flash"
       (_build_script_prompt (topic i) summarized_results) false] ∧
  files (base run.2) = files (base w) ∧
  empty_files run.2 = empty_files w ∧
  ∃ evs,
    screen run.2 = screen w ++ evs ++ results_view (session run.2) ∧
    progress_values evs = [0; 10; 20; 25; 35; 40; 60; 65; 95; 100]%nat ∧
    errors evs = [].
Proof.
  intros search_results summarized_results audio_path produced run
    Hv Hs Hm Hg Hp Hfresh Hunlink.
  subst run. rewrite (main_valid_run Sv F i w Hv).
  rewrite attempt_run. cbv zeta. cbn [drawn base empty_files requests session screen].
  subst search_results summarized_results audio_path produced.
  rewrite Hs. cbv beta iota. rewrite Hm. cbv beta iota. rewrite Hg. cbv beta iota.
  destruct (generate_podcast_audio F script _ (base w)) as [r b] eqn:Hrun.
  cbn [fst] in Hp. subst r.
  apply generate_podcast_audio_ok in Hrun as (_ & _ & [a Ha] & _).
  cbn [snd]. rewrite Ha, lookup_insert_eq. cbn [from_option].
  match goal with
  | |- context [unlink Sv ?q ?W] =>
      destruct (unlink_frame Sv q W) as (Hreq & Hsess & Hscr);
      destruct (unlink_ok Sv q W Hunlink) as (Hfiles & _ & _ & Hempty);
        [cbn [empty_files]; by apply elem_of_union_l, elem_of_singleton|];
      set (w1 := (unlink Sv q W).2) in *
  end.
  cbn [drawn base empty_files requests session screen files] in *.
  split; [by exists a; rewrite Hsess|]. split; [done|].
  apply not_elem_of_union in Hfresh as [Hfile Hempty'].
  split.
  { rewrite Hfiles, Ha, delete_insert_eq. by apply delete_id, not_elem_of_dom. }
  split.
  { rewrite Hempty. apply set_eq. intros x.
    rewrite elem_of_difference, elem_of_union, elem_of_singleton.
    split; [by intros [[->|Hx] Hne] | intros Hx; split; [by right | by intros ->]]. }
  rewrite Hscr. eexists. split; [apply screen_split|]. split; reflexivity.
Qed.

Lemma main_idle_witness :
  main DemoApp.services no_faults DemoApp.inputs_idle
    (DemoApp.world_with Demo.env DemoApp.earlier)
  = (Ok (), drawn (sidebar_view DemoApp.services ++ results_view DemoApp.earlier)
              (DemoApp.world_with Demo.env DemoApp.earlier)).
Proof.
  apply (main_idle DemoApp.services no_faults DemoApp.inputs_idle
           (DemoApp.world_with Demo.env DemoApp.earlier)).
  reflexivity.
Defined.

Lemma main_rejects_invalid_inputs_witness :
  ∃ msg,
    main DemoApp.services no_faults DemoApp.inputs_blank
      (DemoApp.world_with Demo.env DemoApp.earlier)
    = (Ok (), drawn (sidebar_view DemoApp.services ++ [UiError msg])
                (DemoApp.world_with Demo.env DemoApp.earlier)).
Proof.
  apply (main_rejects_invalid_inputs DemoApp.services no_faults DemoApp.inputs_blank
           (DemoApp.world_with Demo.env DemoApp.earlier)).
  - reflexivity.
  - intros (_ & _ & _ & Hblank & _). apply Hblank. reflexivity.
Defined.

Lemma main_valid_outcome_witness :
  let run := main DemoApp.services_no_script Demo.stubborn DemoApp.inputs
               (DemoApp.world_with Demo.env DemoApp.earlier) in
  run.1 = Ok () ∧
  ∃ evs,
    screen run.2
    = screen (DemoApp.world_with Demo.env DemoApp.earlier) ++ evs
      ++ results_view (session run.2) ∧
    StronglySorted lt (progress_values evs) ∧
    head (progress_values evs) = Some 0%nat ∧
    last (progress_values evs) = Some 100%nat ∧
    ((errors evs = [] ∧
      ∃ script audio,
        session run.2 = {| generated_script := Some script;
                          generated_audio := Some audio;
                          generated_topic := Some (topic DemoApp.inputs) |} ∧
        parse_script script ≠ []) ∨
     (∃ msg, errors evs = [msg] ∧
             session run.2 = session (DemoApp.world_with Demo.env DemoApp.earlier))).
Proof.
  apply (main_valid_outcome DemoApp.services_no_script Demo.stubborn DemoApp.inputs
           (DemoApp.world_with Demo.env DemoApp.earlier)).
  repeat split; discriminate.
Defined.

Lemma main_session_consistent_witness :
  consistent
    (session (main DemoApp.services no_faults DemoApp.inputs
                (DemoApp.world_with Demo.env DemoApp.earlier)).2).
Proof.
  apply (main_session_consistent DemoApp.services no_faults DemoApp.inputs
           (DemoApp.world_with Demo.env DemoApp.earlier)).
  right. exists (U "Host: Hello"), [1; 0], (U "older topic").
  split; [reflexivity|]. split; discriminate.
Defined.

Lemma main_search_failure_witness :
  let w := DemoApp.world_with Demo.env DemoApp.earlier in
  let run := main DemoApp.services_no_search no_faults DemoApp.inputs w in
  requests run.2
  = requests w ++ [SearchRequest (U "t-key") (U "the history of tea, leaf by leaf")
                     "advanced" 5 true] ∧
  base run.2 = base w ∧ empty_files run.2 = empty_files w ∧
  session run.2 = session w ∧
  ∃ evs,
    screen run.2 = screen w ++ evs ++ results_view (session w) ∧
    progress_values evs = [0; 10; 100]%nat ∧
    errors evs = ["❌ 오류가 발생했습니다: " +:+ "Unauthorized"].
Proof.
  apply (main_search_failure DemoApp.services_no_search no_faults DemoApp.inputs
           (DemoApp.world_with Demo.env DemoApp.earlier) "Unauthorized").
  - repeat split; discriminate.
  - reflexivity.
Defined.

Lemma main_pipeline_failure_witness :
  let w := DemoApp.world_with Demo.env DemoApp.earlier in
  let audio_path := temp_name DemoApp.services_no_script
                      (dom (files (base w)) ∪ empty_files w) in
  let produced := generate_podcast_audio no_faults [] audio_path (base w) in
  let run := main DemoApp.services_no_script no_faults DemoApp.inputs w in
  audio_path ∈ empty_files run.2 ∧
  base run.2 = produced.2 ∧
  session run.2 = session w ∧
  ∃ evs,
    screen run.2 = screen w ++ evs ++ results_view (session w) ∧
    progress_values evs = [0; 10; 20; 25; 35; 40; 60; 65; 100]%nat ∧
    errors evs = ["❌ 오류가 발생했습니다: " +:+ str_of_exn (ValueError unparsable)].
Proof.
  apply (main_pipeline_failure DemoApp.services_no_script no_faults DemoApp.inputs
           (DemoApp.world_with Demo.env DemoApp.earlier) DemoApp.response [] []
           (ValueError unparsable)).
  - repeat split; discriminate.
  - reflexivity.
  - reflexivity.
  - reflexivity.
  - reflexivity.
Defined.

Lemma main_success_witness :
  let w := DemoApp.empty_world Demo.env in
  let i := DemoApp.inputs in
  let script := U ("Host: Welcome!" +:+ lf +:+ "Guest: Thanks for having me.") in
  let search_results := search_text DemoApp.response in
  let audio_path := temp_name DemoApp.services (dom (files (base w)) ∪ empty_files w) in
  let produced := generate_podcast_audio no_faults script audio_path (base w) in
  let run := main DemoApp.services no_faults i w in
  (∃ audio,
     files produced.2 !! audio_path = Some audio ∧
     session run.2 = {| generated_script := Some script;
                        generated_audio := Some (mp3_bytes DemoApp.services audio);
                        generated_topic := Some (topic i) |}) ∧
  requests run.2
  = requests w ++
    [SearchRequest (tavily_api_key i) (topic i) "advanced" 5 true;
     GenerateRequest (gemini_api_key i) "gemini-2.0-flash"
       (summary_prompt (topic i) search_results) false;
     GenerateRequest (gemini_api_key i) "gemini-2.0-flash"
       (_build_script_prompt (topic i) search_results) false] ∧
  files (base run.2) = files (base w) ∧
  empty_files run.2 = empty_files w ∧
  ∃ evs,
    screen run.2 = screen w ++ evs ++ results_view (session run.2) ∧
    progress_values evs = [0; 10; 20; 25; 35; 40; 60; 65; 95; 100]%nat ∧
    errors evs = [].
Proof.
  apply (main_success DemoApp.services no_faults DemoApp.inputs
           (DemoApp.empty_world Demo.env) DemoApp.response []
           (U ("Host: Welcome!" +:+ lf +:+ "Guest: Thanks for having me."))
           (temp_name DemoApp.services
              (dom (files (base (DemoApp.empty_world Demo.env)))
               ∪ empty_files (DemoApp.empty_world Demo.env)))).
  - repeat split; discriminate.
  - reflexivity.
  - vm_compute. reflexivity.
  - vm_compute. reflexivity.
  - vm_compute. reflexivity.
  - apply is_fresh.
  - reflexivity.
Defined.
